(** * SingleLinkedList: a shallow embedding of single-linked-list.h

    The container is a chain of heap nodes hanging off a sentinel [head_]
    that is a member of the list object.  Nodes are addressed by raw
    pointers, several list objects live in one address space, and
    [operator=] compares object addresses, so the embedding keeps an
    explicit store and threads it through every member function. *)

From Stdlib Require Import ZArith NArith Lia.
From Stdlib Require PrimFloat.
From stdpp Require Import base tactics option list numbers gmap.

Open Scope Z_scope.

(** ** Addresses and [size_t] *)

(** A [Node*]; [nullptr] is address zero. *)
Abbreviation loc := N (only parsing).

Definition nullptr : loc := 0%N.

(** [size_t] is a 64-bit unsigned integer: arithmetic wraps modulo [2^64]. *)
Definition SIZE_MAX : Z := 2 ^ 64 - 1.

Definition size_t (z : Z) : Z := z mod 2 ^ 64.

Section SingleLinkedList.

(** The element type, the value a value-initialised [Type] has (the
    sentinel is built by [Node()]), and the element's [==] and [<]. *)
Context {T : Type}.
Variable Type_default : T.
Variable Type_eq : T → T → bool.
Variable Type_lt : T → T → bool.

(** ** Data model *)

(** [struct Node { Type value; Node* next_node = nullptr; }] *)
Record Node := mkNode { value : T; next_node : loc }.

(** The store.  [nodes] holds every live [Node] by its address, both the
    heap nodes made by [new Node] and the [head_] member of every live list
    object; [size_] holds the [size_] member of every live list object, by
    the object's address. *)
Record Store := mkStore {
  nodes : gmap N Node;
  size_ : gmap N Z
}.

(** [&head_] for the list object at [this]: [head_] is the first member. *)
Definition head_ (this : loc) : loc := this.

(** [BasicIterator<ValueType>]: one pointer.  [Iterator] and
    [ConstIterator] differ only in the constness of the reference they
    hand out, so both are this record. *)
Record BasicIterator := Iterator { node_ : loc }.

(** [BasicIterator() = default], with [Node* node_ = nullptr]. *)
Definition BasicIterator_default : BasicIterator := Iterator nullptr.

(** ** Outcomes and the store monad *)

(** A call returns normally with a value and a store, leaves by
    [std::bad_alloc] (with the store as it is when [new] throws), has
    undefined behaviour (a null or dangling pointer is dereferenced or
    deleted), or is cut off because the loop fuel ran out. *)
Inductive result (A : Type) : Type :=
  | Ok (a : A) (s : Store)
  | Throw (s : Store)
  | Undefined
  | OutOfFuel.
Arguments Ok {A} a s.
Arguments Throw {A} s.
Arguments Undefined {A}.
Arguments OutOfFuel {A}.

Definition M (A : Type) : Type := Store → result A.

Definition ret {A} (a : A) : M A := λ s, Ok a s.

Definition bind {A B} (m : M A) (k : A → M B) : M B :=
  λ s, match m s with
       | Ok a s' => k a s'
       | Throw s' => Throw s'
       | Undefined => Undefined
       | OutOfFuel => OutOfFuel
       end.

Local Notation "'do' x <- m ; k" := (bind m (λ x, k))
  (at level 10, x name, m at level 100, k at level 200,
   format "'[v' 'do'  x  <-  m ; '/' k ']'").
Local Notation "'run' m ; k" := (bind m (λ _, k))
  (at level 10, m at level 100, k at level 200,
   format "'[v' 'run'  m ; '/' k ']'").

Definition out_of_fuel {A} : M A := λ _, OutOfFuel.

(** ** Memory primitives *)

(** [operator new] for one [Node]: the address it hands out, or [None]
    when it throws.  Any allocator will do as long as what it returns is
    unused, not null and an address. *)
Variable operator_new : Store → option N.

(** [p->next_node] *)
Definition load_next (p : loc) : M loc :=
  λ s, match nodes s !! p with
       | Some n => Ok (next_node n) s
       | None => Undefined
       end.

(** [p->value] *)
Definition load_value (p : loc) : M T :=
  λ s, match nodes s !! p with
       | Some n => Ok (value n) s
       | None => Undefined
       end.

(** [p->next_node = q] *)
Definition store_next (p q : loc) : M unit :=
  λ s, match nodes s !! p with
       | Some n =>
           Ok tt (mkStore (<[p := mkNode (value n) q]> (nodes s)) (size_ s))
       | None => Undefined
       end.

(** [new Node(val, next)] *)
Definition new_Node (val : T) (next : loc) : M loc :=
  λ s, match operator_new s with
       | Some a =>
           Ok a (mkStore (<[a := mkNode val next]> (nodes s)) (size_ s))
       | None => Throw s
       end.

(** [delete p]; deleting [nullptr] does nothing. *)
Definition delete_Node (p : loc) : M unit :=
  λ s, if decide (p = nullptr) then Ok tt s
       else match nodes s !! p with
            | Some _ => Ok tt (mkStore (delete p (nodes s)) (size_ s))
            | None => Undefined
            end.

(** [this->size_] read and written. *)
Definition load_size (this : loc) : M Z :=
  λ s, match size_ s !! this with
       | Some z => Ok z s
       | None => Undefined
       end.

Definition store_size (this : loc) (z : Z) : M unit :=
  λ s, match size_ s !! this with
       | Some _ => Ok tt (mkStore (nodes s) (<[this := z]> (size_ s)))
       | None => Undefined
       end.

(** [++size_] / [size_++] and [--size_] / [size_--], results unused. *)
Definition incr_size (this : loc) : M unit :=
  do sz <- load_size this; store_size this (size_t (sz + 1)).

Definition decr_size (this : loc) : M unit :=
  do sz <- load_size this; store_size this (size_t (sz - 1)).

(** ** BasicIterator *)

(** [operator==] and [operator!=]: the pointers are compared. *)
Definition iter_eq (a b : BasicIterator) : bool := (node_ a =? node_ b)%N.

Definition iter_ne (a b : BasicIterator) : bool := negb (node_ a =? node_ b)%N.

(** [operator++()]: [node_ = node_->next_node]. *)
Definition iter_incr (it : BasicIterator) : M BasicIterator :=
  do nxt <- load_next (node_ it); ret (Iterator nxt).

(** [operator*()]: [node_->value]. *)
Definition iter_deref (it : BasicIterator) : M T := load_value (node_ it).

(** ** SingleLinkedList *)

(** The member initialisers [head_ = Node()] and [size_ = 0]; this is all
    the default constructor does. *)
Definition SingleLinkedList_default (this : loc) : M unit :=
  λ s, Ok tt (mkStore (<[head_ this := mkNode Type_default nullptr]> (nodes s))
                      (<[this := 0]> (size_ s))).

Definition before_begin (this : loc) : BasicIterator := Iterator (head_ this).

Definition cbefore_begin (this : loc) : BasicIterator := Iterator (head_ this).

Definition begin (this : loc) : M BasicIterator :=
  do first <- load_next (head_ this); ret (Iterator first).

Definition cbegin (this : loc) : M BasicIterator :=
  do first <- load_next (head_ this); ret (Iterator first).

Definition end_ (this : loc) : BasicIterator := Iterator nullptr.

Definition cend (this : loc) : BasicIterator := Iterator nullptr.

Definition InsertAfter (this : loc) (pos : BasicIterator) (val : T)
  : M BasicIterator :=
  let pos_node := node_ pos in
  do nxt <- load_next pos_node;
  do new_node <- new_Node val nxt;
  run store_next pos_node new_node;
  run incr_size this;
  ret (Iterator new_node).

Definition PopFront (this : loc) : M unit :=
  do next <- load_next (head_ this);
  do after <- load_next next;
  run store_next (head_ this) after;
  run decr_size this;
  delete_Node next.

Definition EraseAfter (this : loc) (pos : BasicIterator) : M BasicIterator :=
  do node_to_delete <- load_next (node_ pos);
  do after <- load_next node_to_delete;
  run store_next (node_ pos) after;
  run delete_Node node_to_delete;
  run decr_size this;
  do now_next <- load_next (node_ pos);
  ret (Iterator now_next).

Definition GetSize (this : loc) : M Z := load_size this.

Definition IsEmpty (this : loc) : M bool :=
  do sz <- load_size this; ret (sz <=? 0).

Definition PushFront (this : loc) (val : T) : M unit :=
  do nxt <- load_next (head_ this);
  do new_node <- new_Node val nxt;
  run store_next (head_ this) new_node;
  incr_size this.

(** [while (size_ > 0) { ... size_--; }]: one unit of fuel per turn. *)
Fixpoint Clear_loop (fuel : nat) (this : loc) : M unit :=
  do sz <- load_size this;
  if 0 <? sz then
    match fuel with
    | O => out_of_fuel
    | S fuel' =>
        do first <- load_next (head_ this);
        do next <- load_next first;
        run delete_Node first;
        run store_next (head_ this) next;
        run decr_size this;
        Clear_loop fuel' this
    end
  else ret tt.

(** The loop counts [size_] down to zero, so [size_] turns are enough. *)
Definition Clear (this : loc) : M unit :=
  do sz <- load_size this; Clear_loop (Z.to_nat sz) this.

(** [~SingleLinkedList()]: [Clear()], then the members go away with the
    object. *)
Definition SingleLinkedList_dtor (this : loc) : M unit :=
  run Clear this;
  λ s, Ok tt (mkStore (delete (head_ this) (nodes s)) (delete this (size_ s))).

(** [swap]: each [std::swap] reads both sides and writes them back crossed. *)
Definition swap (this other : loc) : M unit :=
  do a <- load_next (head_ this);
  do b <- load_next (head_ other);
  run store_next (head_ this) b;
  run store_next (head_ other) a;
  do m <- load_size this;
  do n <- load_size other;
  run store_size this n;
  store_size other m.

(** *** Construction from a range *)

(** [std::vector<Type> temp(begin, end)] for the iterator kinds the
    constructors pass in.  The vector's own buffer is a Rocq list and is
    not charged to the node allocator. *)
Class ForwardRange (I : Type) := vector_ctor : nat → I → I → M (list T).

(** Iterators of a [std::initializer_list<Type>]: pointers into its array. *)
Record ArrayPtr := mkArrayPtr { arr : list T; idx : nat }.

Definition il_begin (values : list T) : ArrayPtr := mkArrayPtr values 0.

Definition il_end (values : list T) : ArrayPtr :=
  mkArrayPtr values (length values).

#[global] Instance ArrayPtr_range : ForwardRange ArrayPtr :=
  λ _ first last,
    ret (take (idx last - idx first)%nat (drop (idx first) (arr first))).

(** Over list iterators the vector is filled by walking [first] up to
    [last]. *)
Fixpoint copy_range (fuel : nat) (first last : BasicIterator) : M (list T) :=
  if iter_ne first last then
    match fuel with
    | O => out_of_fuel
    | S fuel' =>
        do v <- iter_deref first;
        do nxt <- iter_incr first;
        do rest <- copy_range fuel' nxt last;
        ret (v :: rest)
    end
  else ret [].

#[global] Instance BasicIterator_range : ForwardRange BasicIterator :=
  copy_range.

(** [for (auto rit = temp.rbegin(); rit != temp.rend(); ++rit)
      PushFront( *rit)], over the reversed vector. *)
Fixpoint push_each (this : loc) (reversed : list T) : M unit :=
  match reversed with
  | [] => ret tt
  | v :: rest => run PushFront this v; push_each this rest
  end.

Definition InitFromForwardRange {I} `{ForwardRange I}
    (fuel : nat) (this : loc) (first last : I) : M unit :=
  do temp <- vector_ctor fuel first last;
  push_each this (rev temp).

(** [SingleLinkedList(std::initializer_list<Type> values)] *)
Definition SingleLinkedList_init (this : loc) (values : list T) : M unit :=
  run SingleLinkedList_default this;
  InitFromForwardRange 0 this (il_begin values) (il_end values).

(** [SingleLinkedList(const SingleLinkedList& other)] *)
Definition SingleLinkedList_copy (fuel : nat) (this other : loc) : M unit :=
  run SingleLinkedList_default this;
  do first <- begin other;
  InitFromForwardRange fuel this first (end_ other).

(** [operator=].  [temp] is the address of the automatic variable [temp];
    it is destroyed when its block is left. *)
Definition operator_assign (fuel : nat) (temp this rhs : loc) : M loc :=
  if negb (this =? rhs)%N then
    run SingleLinkedList_copy fuel temp rhs;
    run swap this temp;
    run SingleLinkedList_dtor temp;
    ret this
  else ret this.

(** *** Comparisons *)

(** [std::equal(first1, last1, first2, last2)] on forward iterators. *)
Fixpoint std_equal (fuel : nat) (first1 last1 first2 last2 : BasicIterator)
  : M bool :=
  if iter_ne first1 last1 && iter_ne first2 last2 then
    match fuel with
    | O => out_of_fuel
    | S fuel' =>
        do x <- iter_deref first1;
        do y <- iter_deref first2;
        if negb (Type_eq x y) then ret false
        else
          do next1 <- iter_incr first1;
          do next2 <- iter_incr first2;
          std_equal fuel' next1 last1 next2 last2
    end
  else ret (iter_eq first1 last1 && iter_eq first2 last2).

(** [std::lexicographical_compare(first1, last1, first2, last2)] *)
Fixpoint std_lexicographical_compare
    (fuel : nat) (first1 last1 first2 last2 : BasicIterator) : M bool :=
  if iter_ne first1 last1 && iter_ne first2 last2 then
    match fuel with
    | O => out_of_fuel
    | S fuel' =>
        do x <- iter_deref first1;
        do y <- iter_deref first2;
        if Type_lt x y then ret true
        else if Type_lt y x then ret false
        else
          do next1 <- iter_incr first1;
          do next2 <- iter_incr first2;
          std_lexicographical_compare fuel' next1 last1 next2 last2
    end
  else ret (iter_eq first1 last1 && iter_ne first2 last2).

Definition operator_eq (fuel : nat) (lhs rhs : loc) : M bool :=
  do b1 <- begin lhs;
  do b2 <- begin rhs;
  std_equal fuel b1 (end_ lhs) b2 (end_ rhs).

Definition operator_ne (fuel : nat) (lhs rhs : loc) : M bool :=
  do r <- operator_eq fuel lhs rhs; ret (negb r).

Definition operator_lt (fuel : nat) (lhs rhs : loc) : M bool :=
  do b1 <- begin lhs;
  do b2 <- begin rhs;
  std_lexicographical_compare fuel b1 (end_ lhs) b2 (end_ rhs).

Definition operator_le (fuel : nat) (lhs rhs : loc) : M bool :=
  do r <- operator_lt fuel rhs lhs; ret (negb r).

Definition operator_gt (fuel : nat) (lhs rhs : loc) : M bool :=
  operator_lt fuel rhs lhs.

Definition operator_ge (fuel : nat) (lhs rhs : loc) : M bool :=
  do r <- operator_lt fuel lhs rhs; ret (negb r).

(** A client's traversal:
    [for (auto it = l.begin(); it != l.end(); ++it) out.push_back( *it)]. *)
Definition traverse (fuel : nat) (this : loc) : M (list T) :=
  do first <- begin this; copy_range fuel first (end_ this).

(** ** Representation predicates *)

(** [chain h p cells xs]: following [next_node] from [p] visits exactly the
    nodes at [cells], which hold the values [xs], and then reaches
    [nullptr]. *)
Inductive chain (h : gmap N Node) : loc → list N → list T → Prop :=
  | chain_nil : chain h nullptr [] []
  | chain_cons a x nxt cells xs :
      h !! a = Some (mkNode x nxt) →
      chain h nxt cells xs →
      chain h a (a :: cells) (x :: xs).

(** Every live node has an address: not null, and within the 64-bit
    address space. *)
Definition addr_ok (s : Store) : Prop :=
  ∀ a, is_Some (nodes s !! a) → a ≠ nullptr ∧ Z.of_N a ≤ SIZE_MAX.

(** The list object at [this] is well formed: the chain from the sentinel
    runs through the real nodes [cells], holding [xs], and ends in
    [nullptr]; no node occurs twice; and [size_] is the number of real
    nodes. *)
Definition is_list (s : Store) (this : loc) (cells : list N) (xs : list T)
  : Prop :=
  (∃ v0, chain (nodes s) (head_ this) (this :: cells) (v0 :: xs)) ∧
  NoDup (this :: cells) ∧
  size_ s !! this = Some (Z.of_nat (length cells)).

(** [pos] references the [i]-th node of the list at [this], counting the
    sentinel as node 0. *)
Definition position (this : loc) (cells : list N) (pos : BasicIterator)
    (i : nat) : Prop :=
  (this :: cells) !! i = Some (node_ pos).

(** What an operation on the list at [this] may touch: its own nodes, new
    nodes, and its own [size_]. *)
Definition updates (this : loc) (cells cells' : list N) (xs' : list T)
    (s s' : Store) : Prop :=
  is_list s' this cells' xs' ∧
  addr_ok s' ∧
  (∀ a, a ∉ this :: cells → is_Some (nodes s !! a) →
        nodes s' !! a = nodes s !! a) ∧
  (∀ a, a ∈ cells' → a ∈ cells ∨ nodes s !! a = None) ∧
  (∀ t, t ≠ this → size_ s' !! t = size_ s !! t).

(** The storage a constructor is run on is not in use. *)
Definition fresh_object (s : Store) (this : loc) : Prop :=
  nodes s !! this = None ∧ size_ s !! this = None ∧
  this ≠ nullptr ∧ Z.of_N this ≤ SIZE_MAX.

(** What a constructor run on fresh storage at [this] does to the store:
    it builds a well-formed list out of storage that was not in use and
    leaves everything that was in use alone. *)
Definition constructs (this : loc) (cells' : list N) (xs' : list T)
    (s s' : Store) : Prop :=
  is_list s' this cells' xs' ∧
  addr_ok s' ∧
  (∀ a, is_Some (nodes s !! a) → nodes s' !! a = nodes s !! a) ∧
  (∀ a, a ∈ this :: cells' → nodes s !! a = None) ∧
  (∀ t, t ≠ this → size_ s' !! t = size_ s !! t).

(** The list object at [this] is alive. *)
Definition live (s : Store) (this : loc) : Prop := is_Some (size_ s !! this).

(** Every live list object is well formed and no two of them share a
    node: [own] names the nodes and values of each. *)
Definition store_inv (s : Store) : Prop :=
  addr_ok s ∧
  ∃ own : N → option (list N * list T),
    (∀ t, live s t → is_Some (own t)) ∧
    (∀ t c x, own t = Some (c, x) → is_list s t c x) ∧
    (∀ t1 t2 c1 x1 c2 x2, t1 ≠ t2 →
       own t1 = Some (c1, x1) → own t2 = Some (c2, x2) →
       (t1 :: c1) ## (t2 :: c2)).

(** Enough fuel to walk the list at [other] once. *)
Definition fuel_for (s : Store) (other : loc) (fuel : nat) : Prop :=
  ∀ n, size_ s !! other = Some n → n ≤ Z.of_nat fuel.

(** The [k]-th node on the way from [p] along [next_node]. *)
Fixpoint nth_node (h : gmap N Node) (p : loc) (k : nat) : option N :=
  match h !! p with
  | None => None
  | Some n =>
      match k with
      | O => Some p
      | S k' => nth_node h (next_node n) k'
      end
  end.

(** [pos] references a node of the list at [this], the sentinel included. *)
Definition references (s : Store) (this : loc) (pos : BasicIterator) : Prop :=
  ∃ k, nth_node (nodes s) (head_ this) k = Some (node_ pos).

(** The node after [pos] exists. *)
Definition has_next (s : Store) (pos : BasicIterator) : Prop :=
  ∃ n, nodes s !! node_ pos = Some n ∧ next_node n ≠ nullptr.

(** The public operations. *)
Inductive call : Type :=
  | CDefault (this : loc)
  | CInit (this : loc) (values : list T)
  | CCopy (fuel : nat) (this other : loc)
  | CAssign (fuel : nat) (temp this rhs : loc)
  | CSwap (this other : loc)
  | CInsertAfter (this : loc) (pos : BasicIterator) (val : T)
  | CEraseAfter (this : loc) (pos : BasicIterator)
  | CPushFront (this : loc) (val : T)
  | CPopFront (this : loc)
  | CClear (this : loc)
  | CDtor (this : loc).

(** A call, run for its effect on the store. *)
Definition run_call (c : call) : M unit :=
  match c with
  | CDefault this => SingleLinkedList_default this
  | CInit this values => SingleLinkedList_init this values
  | CCopy fuel this other => SingleLinkedList_copy fuel this other
  | CAssign fuel temp this rhs =>
      run operator_assign fuel temp this rhs; ret tt
  | CSwap this other => swap this other
  | CInsertAfter this pos val => run InsertAfter this pos val; ret tt
  | CEraseAfter this pos => run EraseAfter this pos; ret tt
  | CPushFront this val => PushFront this val
  | CPopFront this => PopFront this
  | CClear this => Clear this
  | CDtor this => SingleLinkedList_dtor this
  end.

(** What the caller owes each operation: constructors run on unused
    storage, everything else on live objects; positions belong to the
    list; there is something to erase or pop. *)
Definition call_pre (s : Store) (c : call) : Prop :=
  match c with
  | CDefault this | CInit this _ => fresh_object s this
  | CCopy fuel this other =>
      fresh_object s this ∧ live s other ∧ fuel_for s other fuel
  | CAssign fuel temp this rhs =>
      live s this ∧ live s rhs ∧ fresh_object s temp ∧ fuel_for s rhs fuel
  | CSwap this other => live s this ∧ live s other
  | CInsertAfter this pos _ => live s this ∧ references s this pos
  | CEraseAfter this pos =>
      live s this ∧ references s this pos ∧ has_next s pos
  | CPushFront this _ | CClear this | CDtor this => live s this
  | CPopFront this => live s this ∧ IsEmpty this s = Ok false s
  end.

(** The store before any list is constructed. *)
Definition empty_store : Store := mkStore ∅ ∅.

(** The states reached from the empty store by calls made within their
    contracts, whether the call returns or leaves by [std::bad_alloc].  A
    constructor that throws gives up the nodes it had made; they stay in the
    store, as a list that nobody refers to. *)
Inductive reachable : Store → Prop :=
  | reachable_empty : reachable empty_store
  | reachable_return s c s' :
      reachable s → call_pre s c → run_call c s = Ok tt s' → reachable s'
  | reachable_throw s c s' :
      reachable s → call_pre s c → run_call c s = Throw s' → reachable s'.

(** What [std::equal] computes on two value sequences. *)
Fixpoint list_eqb (xs ys : list T) : bool :=
  match xs, ys with
  | [], [] => true
  | x :: xs', y :: ys' => Type_eq x y && list_eqb xs' ys'
  | _, _ => false
  end.

(** What [std::lexicographical_compare] computes on two value sequences. *)
Fixpoint list_ltb (xs ys : list T) : bool :=
  match xs, ys with
  | _, [] => false
  | [], _ :: _ => true
  | x :: xs', y :: ys' =>
      if Type_lt x y then true
      else if Type_lt y x then false
      else list_ltb xs' ys'
  end.

(** Equality in the spec's words: the same length, and equal values
    element by element in the same order. *)
Definition same_elements (xs ys : list T) : Prop :=
  length xs = length ys ∧
  ∀ i x y, xs !! i = Some x → ys !! i = Some y → Type_eq x y = true.

(** Lexicographic order in the spec's words: the first position where
    one element is less than the other decides, and when there is none a
    sequence that is a strict prefix of the other is the smaller one. *)
Inductive lexicographic_less : list T → list T → Prop :=
  | lex_prefix y ys : lexicographic_less [] (y :: ys)
  | lex_first x xs y ys :
      Type_lt x y = true → lexicographic_less (x :: xs) (y :: ys)
  | lex_later x xs y ys :
      Type_lt x y = false → Type_lt y x = false →
      lexicographic_less xs ys →
      lexicographic_less (x :: xs) (y :: ys).

(** [c] is one of the mutating calls, made on the list at [this]. *)
Definition mutates (this : loc) (c : call) : Prop :=
  match c with
  | CPushFront t _ | CPopFront t | CInsertAfter t _ _ | CEraseAfter t _
  | CClear t => t = this
  | _ => False
  end.

(** Any number of mutations of the list at [this], each made within its
    contract and returning normally. *)
Inductive mutated (this : loc) : Store → Store → Prop :=
  | mutated_refl s : mutated this s s
  | mutated_step s c s' s'' :
      mutates this c → call_pre s c → run_call c s = Ok tt s' →
      mutated this s' s'' → mutated this s s''.

(** [L2] is an independent copy of [L] in [s]: [L] is intact, [L2] holds
    the same values in the same order (so the same size) in nodes of its
    own, [L == L2] returns, with [true] exactly when every value of [L]
    is [==] to itself, and no mutation of [L2] changes [L]. *)
Definition independent_copy (s : Store) (fuel : nat) (L L2 : loc)
    (cells : list N) (xs : list T) : Prop :=
  is_list s L cells xs ∧
  (∃ cells2, is_list s L2 cells2 xs ∧ (L2 :: cells2) ## (L :: cells)) ∧
  GetSize L2 s = GetSize L s ∧
  (∃ b, operator_eq fuel L L2 s = Ok b s ∧
        (b = true ↔ ∀ x, x ∈ xs → Type_eq x x = true)) ∧
  (∀ s', mutated L2 s s' → is_list s' L cells xs).

(** ** A bump allocator, and reading off what a call did *)

(** The largest address in use. *)
Definition max_addr (h : gmap N Node) : N :=
  map_fold (λ a _ m, N.max a m) 0%N h.

(** An allocator that hands out the address after the largest one in use,
    and throws when the address space is exhausted. *)
Definition bump_new (s : Store) : option N :=
  let a := N.succ (max_addr (nodes s)) in
  if decide (Z.of_N a ≤ SIZE_MAX) then Some a else None.

(** The store a call leaves behind, and the value it returns. *)
Definition store_after {A} (m : M A) (s : Store) : Store :=
  match m s with
  | Ok _ s' => s'
  | _ => s
  end.

Definition value_of {A} (r : result A) : option A :=
  match r with
  | Ok a _ => Some a
  | _ => None
  end.

(** The four ordering operators on [SingleLinkedList<Type>{xs}] and
    [SingleLinkedList<Type>{ys}], built at addresses 1 and 1000 of the empty
    store, as ([<], [<=], [>], [>=]). *)
Definition ordering_of (xs ys : list T) : option (bool * bool * bool * bool) :=
  value_of
    ((run SingleLinkedList_init 1%N xs;
      run SingleLinkedList_init 1000%N ys;
      do lt <- operator_lt 100 1%N 1000%N;
      do le <- operator_le 100 1%N 1000%N;
      do gt <- operator_gt 100 1%N 1000%N;
      do ge <- operator_ge 100 1%N 1000%N;
      ret (lt, le, gt, ge)) empty_store).

(** ** The rest of the interface *)

(** The free function [swap(lhs, rhs)]: [lhs.swap(rhs)]. *)
Definition free_swap (lhs rhs : loc) : M unit := swap lhs rhs.

(** [operator++(int)]: [auto previous = *this; ++*this; return previous;].
    The result is the returned copy paired with the iterator as it is left. *)
Definition iter_post_incr (it : BasicIterator)
  : M (BasicIterator * BasicIterator) :=
  let previous := it in
  do advanced <- iter_incr it;
  ret (previous, advanced).

(** [p->value = val] *)
Definition store_value (p : loc) (val : T) : M unit :=
  λ s, match nodes s !! p with
       | Some n =>
           Ok tt (mkStore (<[p := mkNode val (next_node n)]> (nodes s))
                          (size_ s))
       | None => Undefined
       end.

(** [*it = val] through an [Iterator]: [operator*] hands out [node_->value]
    by reference. *)
Definition iter_assign (it : BasicIterator) (val : T) : M unit :=
  store_value (node_ it) val.

(** [++it], [k] times. *)
Fixpoint advance (k : nat) (it : BasicIterator) : M BasicIterator :=
  match k with
  | O => ret it
  | S k' => do nxt <- iter_incr it; advance k' nxt
  end.

(** By how much a call changes the number of elements. *)
Definition size_change (c : call) : Z :=
  match c with
  | CPushFront _ _ | CInsertAfter _ _ _ => 1
  | CPopFront _ | CEraseAfter _ _ => -1
  | _ => 0
  end.

(** The insertions less the removals among the calls [cs]. *)
Definition net_change (cs : list call) : Z :=
  foldr (λ c n, size_change c + n) 0 cs.

(** The calls [cs], each inserting or removing one element of the list at
    [this], made in turn within their contracts and returning normally. *)
Inductive performed (this : loc) : list call → Store → Store → Prop :=
  | performed_nil s : performed this [] s s
  | performed_cons s c cs s' s'' :
      mutates this c → c ≠ CClear this →
      call_pre s c → run_call c s = Ok tt s' →
      performed this cs s' s'' → performed this (c :: cs) s s''.

(** The allocator returns an unused, non-null address. *)
Hypothesis operator_new_fresh : ∀ s a,
  operator_new s = Some a →
  nodes s !! a = None ∧ a ≠ nullptr ∧ Z.of_N a ≤ SIZE_MAX.

(** ** Chains *)

Lemma chain_length h p cells xs :
  chain h p cells xs → length cells = length xs.
Proof. induction 1; simpl; congruence. Qed.

Lemma chain_frame h h' p cells xs :
  chain h p cells xs →
  (∀ c, c ∈ cells → h' !! c = h !! c) →
  chain h' p cells xs.
Proof.
  induction 1 as [|a x nxt cells xs Ha _ IH]; intros Hsame.
  - constructor.
  - econstructor.
    + rewrite Hsame; [exact Ha | left].
    + apply IH. intros c Hc. apply Hsame. by right.
Qed.

Lemma chain_lookup h p cells xs i c :
  chain h p cells xs → cells !! i = Some c →
  ∃ x nxt, h !! c = Some (mkNode x nxt) ∧ xs !! i = Some x ∧
           chain h nxt (drop (S i) cells) (drop (S i) xs).
Proof.
  intros Hch. revert i.
  induction Hch as [|a x nxt cells xs Ha Hch IH]; intros i Hi.
  - done.
  - destruct i as [|i]; simpl in *.
    + simplify_eq. exists x, nxt. by rewrite !drop_0.
    + by apply IH.
Qed.

Lemma chain_allocated h p cells xs c :
  chain h p cells xs → c ∈ cells → is_Some (h !! c).
Proof.
  intros Hch [i Hi]%list_elem_of_lookup.
  destruct (chain_lookup _ _ _ _ _ _ Hch Hi) as (x & nxt & Hc & _). eauto.
Qed.

Lemma chain_functional h p cells xs cells' xs' :
  h !! nullptr = None →
  chain h p cells xs → chain h p cells' xs' → cells = cells' ∧ xs = xs'.
Proof.
  intros Hnull Hch. revert cells' xs'.
  induction Hch as [|a x nxt cells xs Ha Hch IH]; intros cells' xs' Hch'.
  - inversion Hch'; simplify_eq; done.
  - inversion Hch' as [Hp|a' x' nxt' cs' ys' Ha' Hrest]; simplify_eq.
    destruct (IH _ _ Hrest) as [-> ->]. done.
Qed.

Lemma chain_insert h p cells xs i c x nxt a v :
  chain h p cells xs → NoDup cells →
  cells !! i = Some c → h !! c = Some (mkNode x nxt) → h !! a = None →
  chain (<[c := mkNode x a]> (<[a := mkNode v nxt]> h)) p
        (take (S i) cells ++ a :: drop (S i) cells)
        (take (S i) xs ++ v :: drop (S i) xs).
Proof.
  intros Hch. revert i.
  induction Hch as [|b y nb cells xs Hb Hch IH]; intros i Hnd Hi Hc Ha.
  - done.
  - apply NoDup_cons in Hnd as [Hb_notin Hnd].
    assert (Hfresh : a ∉ b :: cells).
    { intros Hin. destruct (chain_allocated h b (b :: cells) (y :: xs) a)
        as [? ?]; [by econstructor | done | congruence]. }
    destruct i as [|i]; simpl in *.
    + simplify_eq. rewrite !drop_0.
      econstructor; [by rewrite lookup_insert_eq|].
      econstructor.
      * rewrite lookup_insert_ne; [by rewrite lookup_insert_eq|].
        intros ->. apply Hfresh. left.
      * eapply chain_frame; [exact Hch|].
        intros d Hd. rewrite !lookup_insert_ne; [done| |].
        -- intros ->. apply Hfresh. by right.
        -- intros ->. done.
    + assert (c ∈ cells) by (eapply list_elem_of_lookup_2; eauto).
      econstructor.
      * rewrite !lookup_insert_ne; [exact Hb| |].
        -- intros ->. apply Hfresh. left.
        -- intros ->. done.
      * by apply IH.
Qed.

Lemma chain_erase h p cells xs i c d x y after :
  chain h p cells xs → NoDup cells →
  cells !! i = Some c → cells !! S i = Some d →
  h !! c = Some (mkNode x d) → h !! d = Some (mkNode y after) →
  chain (delete d (<[c := mkNode x after]> h)) p
        (delete (S i) cells) (delete (S i) xs).
Proof.
  intros Hch. revert i.
  induction Hch as [|b z nb cells xs Hb Hch IH]; intros i Hnd Hi Hsi Hc Hd.
  - done.
  - apply NoDup_cons in Hnd as [Hb_notin Hnd].
    assert (Hd_in : d ∈ cells) by (eapply list_elem_of_lookup_2; eauto).
    destruct i as [|i]; simpl in *.
    + simplify_eq.
      inversion Hch as [|d' y' nd cells' xs' Hd' Hrest]; simplify_eq.
      simpl. apply NoDup_cons in Hnd as [Hd_notin Hnd].
      econstructor.
      * rewrite lookup_delete_ne; [by rewrite lookup_insert_eq|].
        intros ->. done.
      * eapply chain_frame; [exact Hrest|].
        intros e He. rewrite lookup_delete_ne, lookup_insert_ne; [done| |].
        -- intros ->. apply Hb_notin. by right.
        -- intros ->. done.
    + assert (c ∈ cells) by (eapply list_elem_of_lookup_2; eauto).
      econstructor.
      * rewrite lookup_delete_ne, lookup_insert_ne; [exact Hb| |].
        -- intros ->. done.
        -- intros ->. done.
      * by apply IH.
Qed.

(** Distinct live addresses are at most [SIZE_MAX] many. *)
Lemma NoDup_bounded_length (l : list N) (n : nat) :
  NoDup l → (∀ a, a ∈ l → a ≠ 0%N ∧ (N.to_nat a ≤ n)%nat) →
  (length l ≤ n)%nat.
Proof.
  intros Hnd Hb.
  assert (Hsub : N.to_nat <$> l ⊆+ seq 1 n).
  { apply NoDup_submseteq.
    - apply NoDup_fmap_2; [apply _ | done].
    - intros k (a & -> & Ha)%list_elem_of_fmap.
      apply elem_of_seq. destruct (Hb a Ha). lia. }
  apply submseteq_length in Hsub.
  by rewrite length_fmap, length_seq in Hsub.
Qed.

Lemma capacity s (l : list N) :
  addr_ok s → NoDup l → (∀ a, a ∈ l → is_Some (nodes s !! a)) →
  Z.of_nat (length l) ≤ SIZE_MAX.
Proof.
  intros Hok Hnd Hlive.
  assert (length l ≤ Z.to_nat SIZE_MAX)%nat; [|unfold SIZE_MAX in *; lia].
  apply NoDup_bounded_length; [done|].
  intros a Ha. destruct (Hok a (Hlive a Ha)) as [? ?].
  unfold nullptr in *. split; [done | lia].
Qed.

Lemma chain_head h p cells xs :
  chain h p cells xs → p = default nullptr (head cells).
Proof. by destruct 1. Qed.

(** ** Well-formed lists *)

Lemma is_list_sentinel s this cells xs :
  is_list s this cells xs →
  ∃ v0, nodes s !! this = Some (mkNode v0 (default nullptr (head cells))) ∧
        chain (nodes s) (default nullptr (head cells)) cells xs.
Proof.
  intros [[v0 Hch] _]. unfold head_ in Hch.
  inversion Hch as [|a x nxt cs ys Ha Hrest]; simplify_eq.
  pose proof (chain_head _ _ _ _ Hrest) as ->. eauto.
Qed.

Lemma is_list_length s this cells xs :
  is_list s this cells xs → length cells = length xs.
Proof.
  intros [[v0 Hch] _]. apply chain_length in Hch. simpl in Hch. lia.
Qed.

Lemma is_list_live s this cells xs a :
  is_list s this cells xs → a ∈ this :: cells → is_Some (nodes s !! a).
Proof. intros [[v0 Hch] _]. by eapply chain_allocated. Qed.

Lemma is_list_size_bound s this cells xs :
  addr_ok s → is_list s this cells xs →
  Z.of_nat (length cells) + 1 ≤ SIZE_MAX.
Proof.
  intros Hok Hl.
  pose proof (capacity s (this :: cells) Hok) as Hcap. simpl in Hcap.
  pose proof Hl as (_ & Hnd & _).
  assert (Z.of_nat (S (length cells)) ≤ SIZE_MAX); [|lia].
  apply Hcap; [done|]. intros a Ha. by eapply is_list_live.
Qed.

Lemma is_list_functional s this cells xs cells' xs' :
  addr_ok s → is_list s this cells xs → is_list s this cells' xs' →
  cells = cells' ∧ xs = xs'.
Proof.
  intros Hok [[v0 Hch] _] [[v1 Hch'] _].
  assert (Hnull : nodes s !! nullptr = None).
  { destruct (nodes s !! nullptr) eqn:E; [|done].
    by destruct (Hok nullptr (mk_is_Some _ _ E)). }
  destruct (chain_functional _ _ _ _ _ _ Hnull Hch Hch') as [? ?].
  by simplify_eq.
Qed.

Lemma size_t_small z : 0 ≤ z ≤ SIZE_MAX → size_t z = z.
Proof. unfold size_t, SIZE_MAX. intros ?. apply Z.mod_small. lia. Qed.

(** ** InsertAfter *)

Lemma InsertAfter_spec s this cells xs pos i a v :
  addr_ok s → is_list s this cells xs → position this cells pos i →
  operator_new s = Some a →
  ∃ s', InsertAfter this pos v s = Ok (Iterator a) s' ∧
        updates this cells (take i cells ++ a :: drop i cells)
                (take i xs ++ v :: drop i xs) s s'.
Proof.
  intros Hok Hl Hpos Hnew. destruct pos as [p]. unfold position in Hpos.
  simpl in Hpos.
  pose proof Hl as ([v0 Hch] & Hnd & Hsz).
  destruct (chain_lookup _ _ _ _ _ _ Hch Hpos) as (x & nxt & Hp & _ & _).
  destruct (operator_new_fresh _ _ Hnew) as (Hfree & Hnn & Hrange).
  assert (Hpa : a ≠ p) by (intros ->; congruence).
  assert (Hfresh : a ∉ this :: cells).
  { intros Hin. destruct (is_list_live _ _ _ _ _ Hl Hin). congruence. }
  pose proof (is_list_size_bound _ _ _ _ Hok Hl) as Hbound.
  eexists. split.
  { unfold InsertAfter, incr_size, bind, load_next, new_Node, store_next,
      load_size, store_size, ret. simpl.
    rewrite Hp, Hnew. simpl. rewrite lookup_insert_ne, Hp by done. simpl.
    rewrite Hsz. simpl. rewrite Hsz. reflexivity. }
  assert (Hok' : addr_ok
    (mkStore (<[p:=mkNode x a]> (<[a:=mkNode v nxt]> (nodes s)))
             (<[this:=size_t (Z.of_nat (length cells) + 1)]> (size_ s)))).
  { intros b. simpl. intros Hb.
    destruct (decide (b = p)) as [->|?]; [apply Hok; eauto|].
    rewrite lookup_insert_ne in Hb by done.
    destruct (decide (b = a)) as [->|?]; [done|].
    rewrite lookup_insert_ne in Hb by done. by apply Hok. }
  split; [|split; [done|split; [|split]]].
  - split; [|split]; simpl.
    + exists v0.
      pose proof (chain_insert _ _ _ _ _ _ _ _ _ v Hch Hnd Hpos Hp Hfree)
        as Hins.
      exact Hins.
    + assert (Hperm : this :: take i cells ++ a :: drop i cells
                      ≡ₚ a :: this :: cells).
      { rewrite <- Permutation_middle, take_drop. apply Permutation_swap. }
      rewrite Hperm. by apply NoDup_cons.
    + rewrite lookup_insert_eq. f_equal.
      rewrite size_t_small by lia.
      rewrite length_app, length_take. simpl. rewrite length_drop. lia.
  - intros b Hb Hlive. simpl.
    rewrite !lookup_insert_ne; [done| |].
    + intros ->. destruct Hlive. congruence.
    + intros ->. apply Hb. eapply list_elem_of_lookup_2; eauto.
  - intros b [Hb|[->|Hb]%elem_of_cons]%elem_of_app.
    + left. by eapply subseteq_take.
    + by right.
    + left. by eapply subseteq_drop.
  - intros t Ht. simpl. by rewrite lookup_insert_ne.
Qed.

(** ** EraseAfter *)

Lemma EraseAfter_spec s this cells xs pos i d :
  addr_ok s → is_list s this cells xs → position this cells pos i →
  cells !! i = Some d →
  ∃ s', EraseAfter this pos s
          = Ok (Iterator (default nullptr (cells !! S i))) s' ∧
        updates this cells (delete i cells) (delete i xs) s s'.
Proof.
  intros Hok Hl Hpos Hd. destruct pos as [p]. unfold position in Hpos.
  simpl in Hpos.
  pose proof Hl as ([v0 Hch] & Hnd & Hsz).
  assert (Hd' : (this :: cells) !! S i = Some d) by done.
  destruct (chain_lookup _ _ _ _ _ _ Hch Hpos) as (x & nxt & Hp & _ & Hrest).
  destruct (chain_lookup _ _ _ _ _ _ Hch Hd') as (y & after & Hdn & _ & Hrest').
  assert (nxt = d) as ->.
  { apply chain_head in Hrest. rewrite head_lookup, lookup_drop in Hrest.
    rewrite Nat.add_0_r, Hd' in Hrest. done. }
  assert (after = default nullptr (cells !! S i)) as Hafter.
  { apply chain_head in Hrest'. rewrite head_lookup, lookup_drop in Hrest'.
    by rewrite Nat.add_0_r in Hrest'. }
  assert (Hpd : p ≠ d).
  { intros ->. pose proof (NoDup_lookup _ _ _ _ Hnd Hpos Hd'). lia. }
  assert (Hdnull : d ≠ nullptr) by (apply Hok; eauto).
  pose proof (is_list_size_bound _ _ _ _ Hok Hl) as Hbound.
  assert (Hlen : (0 < length cells)%nat).
  { apply lookup_lt_Some in Hd. lia. }
  eexists. split.
  { unfold EraseAfter, decr_size, bind, load_next, delete_Node, store_next,
      load_size, store_size, ret. simpl.
    rewrite Hp. simpl. rewrite Hdn. simpl. rewrite Hp. simpl.
    rewrite decide_False by done.
    rewrite lookup_insert_ne, Hdn by done. simpl.
    rewrite Hsz. simpl. rewrite Hsz. simpl.
    rewrite lookup_delete_ne, lookup_insert_eq by done. simpl.
    rewrite Hafter. reflexivity. }
  split; [|split; [|split; [|split]]].
  - split; [|split]; simpl.
    + exists v0. rewrite <- Hafter.
      exact (chain_erase _ _ _ _ _ _ _ _ _ _ Hch Hnd Hpos Hd' Hp Hdn).
    + apply NoDup_cons in Hnd as [Hthis Hnd]. apply NoDup_cons. split.
      * intros Hin. apply Hthis.
        eapply elem_of_sublist; [exact Hin | apply sublist_delete].
      * eapply sublist_NoDup; [|apply sublist_delete]. done.
    + rewrite lookup_insert_eq. f_equal.
      rewrite size_t_small by lia.
      rewrite length_delete by eauto. lia.
  - intros b. simpl. intros Hb.
    destruct (decide (b = d)) as [->|?];
      [by rewrite lookup_delete_eq in Hb; destruct Hb|].
    rewrite lookup_delete_ne in Hb by done.
    destruct (decide (b = p)) as [->|?]; [apply Hok; eauto|].
    rewrite lookup_insert_ne in Hb by done. by apply Hok.
  - intros b Hb Hlive. simpl.
    rewrite lookup_delete_ne, lookup_insert_ne; [done| |].
    + intros ->. apply Hb. eapply list_elem_of_lookup_2; eauto.
    + intros ->. apply Hb. eapply list_elem_of_lookup_2; eauto.
  - intros b Hb. left.
    eapply elem_of_sublist; [exact Hb | apply sublist_delete].
  - intros t Ht. simpl. by rewrite lookup_insert_ne.
Qed.

(** ** Running the primitives *)

Ltac unfold_ops :=
  unfold InsertAfter, EraseAfter, PushFront, PopFront, GetSize, IsEmpty,
    begin, cbegin, before_begin, cbefore_begin, end_, cend, swap,
    iter_incr, iter_deref, incr_size, decr_size, bind, load_next,
    load_value, new_Node, delete_Node, store_next, load_size, store_size,
    ret, head_ in *.

Ltac exec_step :=
  match goal with
  | H : ?m !! ?k = _ |- context [?m !! ?k] => rewrite H
  | H : operator_new ?s = _ |- context [operator_new ?s] => rewrite H
  | |- context [<[?k := _]> _ !! ?k] => rewrite lookup_insert_eq
  | |- context [<[?k := _]> _ !! ?j] =>
      rewrite (lookup_insert_ne _ k j) by congruence
  | |- context [delete ?k _ !! ?j] =>
      rewrite (lookup_delete_ne _ k j) by congruence
  | |- context [decide (?p = nullptr)] =>
      rewrite (decide_False (P := p = nullptr)) by congruence
  end.

Ltac exec := unfold_ops; simpl; repeat (exec_step; simpl).

(** ** PushFront and PopFront against InsertAfter and EraseAfter *)

Lemma PushFront_as_InsertAfter this v s :
  PushFront this v s
  = (run InsertAfter this (before_begin this) v; ret tt) s.
Proof.
  unfold_ops. simpl.
  destruct (nodes s !! this) as [hd|]; simpl; [|done].
  destruct (operator_new s) as [a|]; simpl; [|done].
  destruct (<[a:=_]> (nodes s) !! this) as [hd'|]; simpl; [|done].
  destruct (size_ s !! this) as [sz|]; simpl; [|done].
  by destruct (size_ s !! this).
Qed.

Lemma PopFront_as_EraseAfter s this cells xs :
  addr_ok s → is_list s this cells xs → xs ≠ [] →
  PopFront this s = (run EraseAfter this (before_begin this); ret tt) s.
Proof.
  intros Hok Hl Hne.
  pose proof (is_list_length _ _ _ _ Hl) as Hlen.
  destruct cells as [|d cells]; [by destruct xs|].
  destruct (is_list_sentinel _ _ _ _ Hl) as (v0 & Hhd & Hch). simpl in *.
  inversion Hch as [|d' y after cs ys Hd Hrest]; simplify_eq.
  pose proof Hl as (_ & Hnd & Hsz).
  assert (this ≠ d).
  { apply NoDup_cons in Hnd as [Hnd _]. intros ->. apply Hnd. left. }
  assert (d ≠ nullptr) by (apply Hok; eauto).
  exec. reflexivity.
Qed.

Lemma PushFront_spec s this cells xs a v :
  addr_ok s → is_list s this cells xs → operator_new s = Some a →
  ∃ s', PushFront this v s = Ok tt s' ∧
        updates this cells (a :: cells) (v :: xs) s s'.
Proof.
  intros Hok Hl Hnew.
  destruct (InsertAfter_spec s this cells xs (before_begin this) 0 a v)
    as (s' & Hrun & Hupd); [done..|].
  exists s'. split; [|by rewrite !take_0, !drop_0 in Hupd].
  rewrite PushFront_as_InsertAfter. unfold bind. by rewrite Hrun.
Qed.

Lemma PushFront_throws s this cells xs v :
  is_list s this cells xs → operator_new s = None →
  PushFront this v s = Throw s.
Proof.
  intros Hl Hnew. destruct (is_list_sentinel _ _ _ _ Hl) as (v0 & Hhd & _).
  by exec.
Qed.

Lemma PopFront_spec s this d cells x xs :
  addr_ok s → is_list s this (d :: cells) (x :: xs) →
  ∃ s', PopFront this s = Ok tt s' ∧ updates this (d :: cells) cells xs s s'.
Proof.
  intros Hok Hl.
  destruct (EraseAfter_spec s this (d :: cells) (x :: xs)
              (before_begin this) 0 d) as (s' & Hrun & Hupd); [done..|].
  exists s'. split; [|done].
  erewrite PopFront_as_EraseAfter by done. unfold bind. by rewrite Hrun.
Qed.

(** ** Composing updates, and what they leave alone *)

Lemma updates_refl s this cells xs :
  addr_ok s → is_list s this cells xs → updates this cells cells xs s s.
Proof.
  intros Hok Hl. split; [done|split; [done|split; [done|split]]].
  - intros a Ha. by left.
  - done.
Qed.

Lemma updates_trans this c0 c1 c2 x1 x2 s0 s1 s2 :
  updates this c0 c1 x1 s0 s1 → updates this c1 c2 x2 s1 s2 →
  updates this c0 c2 x2 s0 s2.
Proof.
  intros (Hl1 & Hok1 & Hfr1 & Hnew1 & Hsz1) (Hl2 & Hok2 & Hfr2 & Hnew2 & Hsz2).
  split; [done|split; [done|split; [|split]]].
  - intros a Ha Hlive.
    assert (Hsame : nodes s1 !! a = nodes s0 !! a) by auto.
    rewrite <- Hsame. apply Hfr2; [|by rewrite Hsame].
    intros [->|Hin]%elem_of_cons; [apply Ha; left|].
    destruct (Hnew1 a Hin) as [?|Hnone].
    + apply Ha. by right.
    + destruct Hlive. congruence.
  - intros a Ha.
    destruct (Hnew2 a Ha) as [Hin|Hnone]; [by apply Hnew1|].
    destruct (decide (a ∈ c0)); [by left|]. right.
    destruct (nodes s0 !! a) eqn:E; [|done]. exfalso.
    destruct (decide (a = this)) as [->|Hne].
    + destruct (is_list_live _ _ _ _ this Hl1); [left|congruence].
    + rewrite Hfr1 in Hnone; [congruence| |eauto].
      by intros [?|?]%elem_of_cons.
  - intros t Ht. rewrite Hsz2, Hsz1; done.
Qed.

(** A list disjoint from the one operated on is left as it was, and
    stays disjoint from it. *)
Lemma updates_frame this cells cells' xs' s s' t c x :
  updates this cells cells' xs' s s' →
  is_list s t c x → (t :: c) ## (this :: cells) →
  is_list s' t c x ∧ (t :: c) ## (this :: cells').
Proof.
  intros (Hl' & Hok' & Hfr & Hnew & Hsz) Hl Hdisj.
  pose proof Hl as ([v0 Hch] & Hnd & Hsize).
  split.
  - split; [|split; [done|]].
    + exists v0. eapply chain_frame; [exact Hch|].
      intros a Ha. apply Hfr; [|by eapply is_list_live].
      intros Hin. by apply (Hdisj a).
    + rewrite Hsz; [done|]. intros ->. apply (Hdisj this); left.
  - intros a Ha [->|Hin]%elem_of_cons.
    + apply (Hdisj this); [done|left].
    + destruct (Hnew a Hin) as [?|Hnone].
      * apply (Hdisj a); [done|by right].
      * destruct (is_list_live _ _ _ _ a Hl Ha). congruence.
Qed.

(** ** Construction *)

Lemma default_spec s this :
  addr_ok s → fresh_object s this →
  ∃ s', SingleLinkedList_default this s = Ok tt s' ∧
        is_list s' this [] [] ∧ addr_ok s' ∧
        (∀ a, a ≠ this → nodes s' !! a = nodes s !! a) ∧
        (∀ t, t ≠ this → size_ s' !! t = size_ s !! t).
Proof.
  intros Hok (Hfree & Hnosz & Hnn & Hrange).
  eexists. split; [reflexivity|]. unfold head_.
  split; [|split; [|split]]; simpl.
  - split; [|split]; simpl.
    + exists Type_default. econstructor; [by rewrite lookup_insert_eq|].
      constructor.
    + apply NoDup_singleton.
    + by rewrite lookup_insert_eq.
  - intros a. simpl. intros Ha.
    destruct (decide (a = this)) as [->|?]; [done|].
    rewrite lookup_insert_ne in Ha by done. by apply Hok.
  - intros a Ha. by rewrite lookup_insert_ne.
  - intros t Ht. by rewrite lookup_insert_ne.
Qed.

Lemma push_each_spec vs : ∀ s this cells xs,
  addr_ok s → is_list s this cells xs →
  match push_each this vs s with
  | Ok _ s' => ∃ new, length new = length vs ∧
                      updates this cells (new ++ cells) (rev vs ++ xs) s s'
  | Throw s1 => operator_new s1 = None ∧
                ∃ cells1 xs1, updates this cells cells1 xs1 s s1
  | Undefined | OutOfFuel => False
  end.
Proof.
  induction vs as [|v vs IH]; intros s this cells xs Hok Hl; simpl.
  - exists []. split; [done|]. by apply updates_refl.
  - unfold bind. destruct (operator_new s) as [a|] eqn:Hnew.
    + destruct (PushFront_spec s this cells xs a v Hok Hl Hnew)
        as (s1 & -> & Hupd).
      pose proof Hupd as (Hl1 & Hok1 & _).
      specialize (IH s1 this (a :: cells) (v :: xs) Hok1 Hl1).
      destruct (push_each this vs s1) as [[] s2|s2| |]; try done.
      * destruct IH as (new & Hlen & Hupd2).
        exists (new ++ [a]). split.
        -- rewrite length_app. simpl. lia.
        -- rewrite <- !app_assoc. simpl.
           eapply updates_trans; [exact Hupd|exact Hupd2].
      * destruct IH as (Hnone & c1 & x1 & Hupd2).
        split; [done|]. exists c1, x1.
        eapply updates_trans; [exact Hupd|exact Hupd2].
    + rewrite (PushFront_throws s this cells xs v Hl Hnew).
      split; [done|]. exists cells, xs. by apply updates_refl.
Qed.

(** ** Clear and the destructor *)

(** One turn of the loop in [Clear] does what [PopFront] does. *)
Lemma Clear_loop_step s this d cells x xs fuel :
  addr_ok s → is_list s this (d :: cells) (x :: xs) →
  Clear_loop (S fuel) this s = (run PopFront this; Clear_loop fuel this) s.
Proof.
  intros Hok Hl.
  destruct (is_list_sentinel _ _ _ _ Hl) as (v0 & Hhd & Hch). simpl in *.
  inversion Hch as [|d' y after cs ys Hd Hrest]; simplify_eq.
  pose proof Hl as (_ & Hnd & Hsz).
  assert (this ≠ d).
  { apply NoDup_cons in Hnd as [Hnd _]. intros ->. apply Hnd. left. }
  assert (d ≠ nullptr) by (apply Hok; eauto).
  exec. rewrite (delete_insert_ne (nodes s) d this) by done. reflexivity.
Qed.

Lemma Clear_loop_spec cells : ∀ s this xs fuel,
  addr_ok s → is_list s this cells xs → (length cells ≤ fuel)%nat →
  ∃ s', Clear_loop fuel this s = Ok tt s' ∧ updates this cells [] [] s s'.
Proof.
  induction cells as [|d cells IH]; intros s this xs fuel Hok Hl Hfuel.
  - pose proof (is_list_length _ _ _ _ Hl) as Hlen.
    destruct xs; [|done]. exists s. split; [|by apply updates_refl].
    destruct Hl as (_ & _ & Hsz). simpl in Hsz.
    destruct fuel; simpl; unfold bind, load_size; by rewrite Hsz.
  - pose proof (is_list_length _ _ _ _ Hl) as Hlen.
    destruct xs as [|x xs]; [done|].
    destruct fuel as [|fuel]; [simpl in Hfuel; lia|].
    rewrite (Clear_loop_step s this d cells x xs fuel Hok Hl).
    destruct (PopFront_spec s this d cells x xs Hok Hl) as (s1 & Hpop & Hupd).
    unfold bind at 1. rewrite Hpop.
    pose proof Hupd as (Hl1 & Hok1 & _).
    destruct (IH s1 this xs fuel Hok1 Hl1) as (s2 & Hrun & Hupd2);
      [simpl in Hfuel; lia|].
    exists s2. split; [done|]. by eapply updates_trans.
Qed.

Lemma Clear_spec s this cells xs :
  addr_ok s → is_list s this cells xs →
  ∃ s', Clear this s = Ok tt s' ∧ updates this cells [] [] s s'.
Proof.
  intros Hok Hl. pose proof Hl as (_ & _ & Hsz).
  unfold Clear, bind, load_size. rewrite Hsz.
  apply (Clear_loop_spec cells s this xs); [done..|lia].
Qed.

(** ** Traversal *)

Lemma copy_range_chain s : ∀ cells p xs fuel,
  addr_ok s → chain (nodes s) p cells xs → (length cells ≤ fuel)%nat →
  copy_range fuel (Iterator p) (Iterator nullptr) s = Ok xs s.
Proof.
  induction cells as [|c cells IH]; intros p xs fuel Hok Hch Hfuel;
    inversion Hch as [|a x nxt cs ys Ha Hrest]; simplify_eq.
  - by destruct fuel.
  - destruct fuel as [|fuel]; [simpl in Hfuel; lia|].
    assert (Hne : c ≠ nullptr) by (apply Hok; eauto).
    simpl. unfold iter_ne. simpl.
    destruct (N.eqb_spec c nullptr) as [?|_]; [done|]. simpl.
    unfold bind, iter_deref, iter_incr, load_value, bind, load_next, ret.
    simpl. rewrite Ha. simpl. rewrite Ha. simpl.
    rewrite (IH nxt ys fuel Hok Hrest) by (simpl in Hfuel; lia). done.
Qed.

Lemma begin_spec s this cells xs :
  is_list s this cells xs →
  begin this s = Ok (Iterator (default nullptr (head cells))) s.
Proof.
  intros Hl. destruct (is_list_sentinel _ _ _ _ Hl) as (v0 & Hhd & _).
  by exec.
Qed.

Lemma traverse_spec s this cells xs fuel :
  addr_ok s → is_list s this cells xs → (length cells ≤ fuel)%nat →
  traverse fuel this s = Ok xs s.
Proof.
  intros Hok Hl Hfuel.
  destruct (is_list_sentinel _ _ _ _ Hl) as (v0 & Hhd & Hch).
  unfold traverse, bind. rewrite (begin_spec s this cells xs Hl).
  by apply (copy_range_chain s cells).
Qed.

Lemma constructs_frame this cells' xs' s s' t c x :
  constructs this cells' xs' s s' → is_list s t c x →
  is_list s' t c x ∧ (t :: c) ## (this :: cells').
Proof.
  intros (Hl' & Hok' & Hfr & Hnew & Hsz) Hl.
  pose proof Hl as ([v0 Hch] & Hnd & Hsize).
  assert (Hdisj : (t :: c) ## (this :: cells')).
  { intros a Ha Ha'. destruct (is_list_live _ _ _ _ a Hl Ha) as [n Hn].
    rewrite (Hnew a Ha') in Hn. done. }
  split; [|done]. split; [|split; [done|]].
  - exists v0. eapply chain_frame; [exact Hch|].
    intros a Ha. apply Hfr. by eapply is_list_live.
  - rewrite Hsz; [done|]. intros ->. apply (Hdisj this); left.
Qed.

Lemma constructs_intro this cells' xs' s s0 s' :
  fresh_object s this →
  (∀ a, a ≠ this → nodes s0 !! a = nodes s !! a) →
  (∀ t, t ≠ this → size_ s0 !! t = size_ s !! t) →
  updates this [] cells' xs' s0 s' →
  constructs this cells' xs' s s'.
Proof.
  intros (Hfree & Hnosz & Hnn & Hrange) Hn0 Hs0 (Hl' & Hok' & Hfr & Hnew & Hsz).
  split; [done|split; [done|split; [|split]]].
  - intros a Ha. assert (a ≠ this) by (intros ->; destruct Ha; congruence).
    rewrite <- (Hn0 a) by done. apply Hfr.
    + by intros ->%list_elem_of_singleton.
    + by rewrite Hn0.
  - intros a [->|Ha]%elem_of_cons; [done|].
    destruct (decide (a = this)) as [->|Hne]; [done|].
    destruct (Hnew a Ha) as [Hin|Hnone]; [by apply elem_of_nil in Hin|].
    by rewrite <- Hn0.
  - intros t Ht. by rewrite Hsz, Hs0.
Qed.

Lemma InitFromForwardRange_spec {I} `{ForwardRange I}
    fuel (first last : I) temp s0 s this :
  fresh_object s this →
  SingleLinkedList_default this s = Ok tt s0 →
  addr_ok s →
  vector_ctor fuel first last s0 = Ok temp s0 →
  match InitFromForwardRange fuel this first last s0 with
  | Ok _ s' => ∃ cells', constructs this cells' temp s s'
  | Throw s1 => operator_new s1 = None ∧
                ∃ cells1 xs1, constructs this cells1 xs1 s s1
  | Undefined | OutOfFuel => False
  end.
Proof.
  intros Hfresh Hdef Hok Hvec.
  destruct (default_spec s this Hok Hfresh) as (s0' & Hdef' & Hl0 & Hok0 & Hn0 & Hs0).
  rewrite Hdef in Hdef'. simplify_eq.
  unfold InitFromForwardRange, bind. rewrite Hvec.
  pose proof (push_each_spec (rev temp) s0' this [] [] Hok0 Hl0) as Hpush.
  destruct (push_each this (rev temp) s0') as [[] s'|s1| |]; try done.
  - destruct Hpush as (new & _ & Hupd).
    rewrite rev_involutive, !app_nil_r in Hupd.
    exists new. by eapply constructs_intro.
  - destruct Hpush as (Hnone & c1 & x1 & Hupd).
    split; [done|]. exists c1, x1. by eapply constructs_intro.
Qed.

Lemma init_spec s this values :
  addr_ok s → fresh_object s this →
  match SingleLinkedList_init this values s with
  | Ok _ s' => ∃ cells', constructs this cells' values s s'
  | Throw s1 => operator_new s1 = None ∧
                ∃ cells1 xs1, constructs this cells1 xs1 s s1
  | Undefined | OutOfFuel => False
  end.
Proof.
  intros Hok Hfresh. unfold SingleLinkedList_init, bind.
  destruct (SingleLinkedList_default this s) as [[] s0| | |] eqn:Hdef;
    try done.
  apply (InitFromForwardRange_spec 0 (il_begin values) (il_end values)
           values s0 s this); try done.
  unfold vector_ctor, ArrayPtr_range, ret. simpl.
  by rewrite Nat.sub_0_r, firstn_all.
Qed.

Lemma copy_spec s this other cells xs fuel :
  addr_ok s → fresh_object s this → is_list s other cells xs →
  (length cells ≤ fuel)%nat →
  match SingleLinkedList_copy fuel this other s with
  | Ok _ s' => ∃ cells', constructs this cells' xs s s'
  | Throw s1 => operator_new s1 = None ∧
                ∃ cells1 xs1, constructs this cells1 xs1 s s1
  | Undefined | OutOfFuel => False
  end.
Proof.
  intros Hok Hfresh Hl Hfuel. unfold SingleLinkedList_copy, bind.
  destruct (SingleLinkedList_default this s) as [[] s0| | |] eqn:Hdef;
    try done.
  destruct (default_spec s this Hok Hfresh)
    as (s0' & Hdef' & Hl0 & Hok0 & Hn0 & Hs0).
  rewrite Hdef in Hdef'. simplify_eq.
  assert (Hl' : is_list s0' other cells xs).
  { eapply (constructs_frame this [] [] s s0'); [|done].
    eapply constructs_intro; [done..|]. by apply updates_refl. }
  rewrite (begin_spec s0' other cells xs Hl').
  destruct (is_list_sentinel _ _ _ _ Hl') as (v0 & _ & Hch).
  apply (InitFromForwardRange_spec fuel
           (Iterator (default nullptr (head cells))) (end_ other)
           xs s0' s this); try done.
  by apply (copy_range_chain s0' cells).
Qed.

(** ** swap and the destructor *)

Lemma is_list_frame s s' t c x :
  is_list s t c x →
  (∀ a, a ∈ t :: c → nodes s' !! a = nodes s !! a) →
  size_ s' !! t = size_ s !! t →
  is_list s' t c x.
Proof.
  intros ([v0 Hch] & Hnd & Hsize) Hsame Hsz.
  split; [|split; [done|by rewrite Hsz]].
  exists v0. eapply chain_frame; [exact Hch | exact Hsame].
Qed.

Lemma Store_eq (s s' : Store) :
  (∀ a, nodes s' !! a = nodes s !! a) →
  (∀ t, size_ s' !! t = size_ s !! t) →
  s' = s.
Proof.
  destruct s as [n z], s' as [n' z']. simpl. intros Hn Hz.
  f_equal; by apply map_eq.
Qed.

Lemma swap_self s this cells xs :
  is_list s this cells xs → swap this this s = Ok tt s.
Proof.
  intros Hl. destruct (is_list_sentinel _ _ _ _ Hl) as (v0 & Hhd & _).
  pose proof Hl as (_ & _ & Hsz).
  exec. f_equal. apply Store_eq; simpl; intros a.
  - destruct (decide (a = this)) as [->|?]; by exec.
  - destruct (decide (a = this)) as [->|?]; by exec.
Qed.

Lemma swap_spec s A B cA xA cB xB :
  addr_ok s → is_list s A cA xA → is_list s B cB xB →
  (A :: cA) ## (B :: cB) →
  ∃ s', swap A B s = Ok tt s' ∧
        is_list s' A cB xB ∧ is_list s' B cA xA ∧ addr_ok s' ∧
        (∀ a, a ≠ A → a ≠ B → nodes s' !! a = nodes s !! a) ∧
        (∀ t, t ≠ A → t ≠ B → size_ s' !! t = size_ s !! t).
Proof.
  intros Hok HA HB Hdisj.
  destruct (is_list_sentinel _ _ _ _ HA) as (vA & HhA & HchA).
  destruct (is_list_sentinel _ _ _ _ HB) as (vB & HhB & HchB).
  pose proof HA as (_ & HndA & HszA). pose proof HB as (_ & HndB & HszB).
  assert (HAB : A ≠ B).
  { intros ->. apply (Hdisj B); left. }
  apply NoDup_cons in HndA as [HA_cA HndA].
  apply NoDup_cons in HndB as [HB_cB HndB].
  assert (HA_cB : A ∉ cB).
  { intros Hin. apply (Hdisj A); [left|by right]. }
  assert (HB_cA : B ∉ cA).
  { intros Hin. apply (Hdisj B); [by right|left]. }
  eexists. split; [exec; reflexivity|].
  split; [|split; [|split; [|split]]]; simpl.
  - split; [|split]; simpl.
    + exists vA. econstructor; [by exec|].
      eapply chain_frame; [exact HchB|]. intros a Ha. simpl.
      rewrite !lookup_insert_ne; [done|intros ->; done..].
    + by apply NoDup_cons.
    + by exec.
  - split; [|split]; simpl.
    + exists vB. econstructor; [by exec|].
      eapply chain_frame; [exact HchA|]. intros a Ha. simpl.
      rewrite !lookup_insert_ne; [done|intros ->; done..].
    + by apply NoDup_cons.
    + by exec.
  - intros a. simpl. intros Ha.
    destruct (decide (a = B)) as [->|?]; [apply Hok; eauto|].
    destruct (decide (a = A)) as [->|?]; [apply Hok; eauto|].
    rewrite !lookup_insert_ne in Ha by done. by apply Hok.
  - intros a ? ?. by rewrite !lookup_insert_ne.
  - intros t ? ?. by rewrite !lookup_insert_ne.
Qed.

Lemma dtor_spec s this cells xs :
  addr_ok s → is_list s this cells xs →
  ∃ s', SingleLinkedList_dtor this s = Ok tt s' ∧ addr_ok s' ∧
        nodes s' !! this = None ∧ size_ s' !! this = None ∧
        (∀ a, a ∉ this :: cells → is_Some (nodes s !! a) →
              nodes s' !! a = nodes s !! a) ∧
        (∀ t, t ≠ this → size_ s' !! t = size_ s !! t).
Proof.
  intros Hok Hl.
  destruct (Clear_spec s this cells xs Hok Hl)
    as (s1 & Hclear & Hl1 & Hok1 & Hfr & _ & Hsz).
  eexists. split.
  { unfold SingleLinkedList_dtor, bind. rewrite Hclear. reflexivity. }
  unfold head_. simpl. split; [|split; [|split; [|split]]].
  - intros a. simpl. intros Ha.
    destruct (decide (a = this)) as [->|?];
      [by rewrite lookup_delete_eq in Ha; destruct Ha|].
    rewrite lookup_delete_ne in Ha by done. by apply Hok1.
  - by rewrite lookup_delete_eq.
  - by rewrite lookup_delete_eq.
  - intros a Ha Hlive. rewrite lookup_delete_ne; [by apply Hfr|].
    intros ->. apply Ha. left.
  - intros t Ht. rewrite lookup_delete_ne by done. by apply Hsz.
Qed.

(** ** The invariant of the whole store *)

Lemma list_disjoint_sym (l k : list N) : l ## k → k ## l.
Proof. intros Hd a Ha Ha'. by apply (Hd a). Qed.

Lemma is_list_is_live s this cells xs : is_list s this cells xs → live s this.
Proof. intros (_ & _ & Hsz). unfold live. eauto. Qed.

Lemma store_inv_addr_ok s : store_inv s → addr_ok s.
Proof. by intros [? _]. Qed.

Lemma store_inv_list s this :
  store_inv s → live s this → ∃ cells xs, is_list s this cells xs.
Proof.
  intros (Hok & own & Hlive & Hown & _) Hthis.
  destruct (Hlive this Hthis) as [[c x] Hc]. eauto.
Qed.

Lemma store_inv_disjoint s t1 t2 c1 x1 c2 x2 :
  store_inv s → t1 ≠ t2 → is_list s t1 c1 x1 → is_list s t2 c2 x2 →
  (t1 :: c1) ## (t2 :: c2).
Proof.
  intros (Hok & own & Hlive & Hown & Hdisj) Hne H1 H2.
  destruct (Hlive t1 (is_list_is_live _ _ _ _ H1)) as [[c1' x1'] Ho1].
  destruct (Hlive t2 (is_list_is_live _ _ _ _ H2)) as [[c2' x2'] Ho2].
  destruct (is_list_functional _ _ _ _ _ _ Hok H1 (Hown _ _ _ Ho1)) as [-> ->].
  destruct (is_list_functional _ _ _ _ _ _ Hok H2 (Hown _ _ _ Ho2)) as [-> ->].
  by eapply Hdisj.
Qed.

Lemma store_inv_own s this cells xs :
  store_inv s → is_list s this cells xs →
  ∃ own : N → option (list N * list T),
    own this = Some (cells, xs) ∧
    (∀ t, live s t → is_Some (own t)) ∧
    (∀ t c x, own t = Some (c, x) → is_list s t c x) ∧
    (∀ t1 t2 c1 x1 c2 x2, t1 ≠ t2 →
       own t1 = Some (c1, x1) → own t2 = Some (c2, x2) →
       (t1 :: c1) ## (t2 :: c2)).
Proof.
  intros (Hok & own & Hlive & Hown & Hdisj) Hl. exists own.
  split; [|done].
  destruct (Hlive this (is_list_is_live _ _ _ _ Hl)) as [[c x] Ho].
  by destruct (is_list_functional _ _ _ _ _ _ Hok Hl (Hown _ _ _ Ho))
    as [-> ->].
Qed.

Lemma store_inv_updates s s' this cells xs cells' xs' :
  store_inv s → is_list s this cells xs →
  updates this cells cells' xs' s s' →
  store_inv s'.
Proof.
  intros Hinv Hl Hupd.
  destruct (store_inv_own _ _ _ _ Hinv Hl) as (own & Hthis & Hlive & Hown & Hdisj).
  pose proof Hupd as (Hl' & Hok' & _ & _ & Hsz).
  split; [done|].
  exists (λ t, if decide (t = this) then Some (cells', xs') else own t).
  split; [|split].
  - intros t Ht. destruct (decide (t = this)); [done|].
    apply Hlive. unfold live in *. by rewrite <- Hsz.
  - intros t c x Ht. destruct (decide (t = this)) as [->|Hne];
      [by simplify_eq|].
    eapply updates_frame; [exact Hupd|by apply Hown|by eapply Hdisj].
  - intros t1 t2 c1 x1 c2 x2 Hne H1 H2.
    destruct (decide (t1 = this)) as [->|Hne1];
      destruct (decide (t2 = this)) as [->|Hne2]; simplify_eq.
    + apply list_disjoint_sym.
      eapply updates_frame; [exact Hupd|by apply Hown|by eapply Hdisj].
    + eapply updates_frame; [exact Hupd|by apply Hown|by eapply Hdisj].
    + by eapply Hdisj.
Qed.

Lemma store_inv_constructs s s' this cells' xs' :
  store_inv s → constructs this cells' xs' s s' → store_inv s'.
Proof.
  intros (Hok & own & Hlive & Hown & Hdisj) Hcon.
  pose proof Hcon as (Hl' & Hok' & _ & _ & Hsz).
  split; [done|].
  exists (λ t, if decide (t = this) then Some (cells', xs') else own t).
  split; [|split].
  - intros t Ht. destruct (decide (t = this)); [done|].
    apply Hlive. unfold live in *. by rewrite <- Hsz.
  - intros t c x Ht. destruct (decide (t = this)) as [->|Hne];
      [by simplify_eq|].
    eapply constructs_frame; [exact Hcon|by apply Hown].
  - intros t1 t2 c1 x1 c2 x2 Hne H1 H2.
    destruct (decide (t1 = this)) as [->|Hne1];
      destruct (decide (t2 = this)) as [->|Hne2]; simplify_eq.
    + apply list_disjoint_sym.
      eapply constructs_frame; [exact Hcon|by apply Hown].
    + eapply constructs_frame; [exact Hcon|by apply Hown].
    + by eapply Hdisj.
Qed.

Lemma store_inv_swap s s' A B :
  store_inv s → live s A → live s B → swap A B s = Ok tt s' →
  store_inv s' ∧ (∀ t, live s' t ↔ live s t).
Proof.
  intros Hinv HA HB Hrun.
  destruct (store_inv_list _ _ Hinv HA) as (cA & xA & HlA).
  destruct (decide (A = B)) as [->|Hne].
  { rewrite (swap_self _ _ _ _ HlA) in Hrun. by simplify_eq. }
  destruct (store_inv_list _ _ Hinv HB) as (cB & xB & HlB).
  pose proof (store_inv_disjoint _ _ _ _ _ _ _ Hinv Hne HlA HlB) as HdAB.
  destruct (swap_spec s A B cA xA cB xB (store_inv_addr_ok _ Hinv) HlA HlB HdAB)
    as (s'' & Hrun' & HlA' & HlB' & Hok' & Hnodes & Hsz).
  rewrite Hrun in Hrun'. simplify_eq.
  destruct (store_inv_own _ _ _ _ Hinv HlA) as (own & HoA & Hlive & Hown & Hdisj).
  assert (HoB : own B = Some (cB, xB)).
  { destruct (Hlive B HB) as [[c x] Ho].
    by destruct (is_list_functional _ _ _ _ _ _ (store_inv_addr_ok _ Hinv)
                   HlB (Hown _ _ _ Ho)) as [-> ->]. }
  assert (Hlv : ∀ t, live s'' t ↔ live s t).
  { intros t. unfold live.
    destruct (decide (t = A)) as [->|?];
      [split; intros _; [done|by eapply is_list_is_live]|].
    destruct (decide (t = B)) as [->|?];
      [split; intros _; [done|by eapply is_list_is_live]|].
    by rewrite Hsz. }
  split; [|done]. split; [done|].
  exists (λ t, if decide (t = A) then Some (cB, xB)
               else if decide (t = B) then Some (cA, xA) else own t).
  assert (Hcross : (A :: cB) ## (B :: cA)).
  { pose proof HlA as (_ & [HA_cA _]%NoDup_cons & _).
    pose proof HlB as (_ & [HB_cB _]%NoDup_cons & _).
    intros a [->|Ha]%elem_of_cons [->|Ha']%elem_of_cons; [done..|].
    apply (HdAB a); by right. }
  assert (Hother : ∀ t c x, t ≠ A → t ≠ B → own t = Some (c, x) →
            is_list s'' t c x ∧ (t :: c) ## (A :: cB) ∧ (t :: c) ## (B :: cA)).
  { intros t c x HtA HtB Ho.
    pose proof (Hdisj t A c x cA xA HtA Ho HoA) as HdA.
    pose proof (Hdisj t B c x cB xB HtB Ho HoB) as HdB.
    split; [|split].
    - eapply is_list_frame; [by apply Hown| |by apply Hsz].
      intros a Ha. apply Hnodes; intros ->.
      + apply (HdA A); [done|left].
      + apply (HdB B); [done|left].
    - intros a Ha [->|Ha']%elem_of_cons.
      + apply (HdA A); [done|left].
      + apply (HdB a); [done|by right].
    - intros a Ha [->|Ha']%elem_of_cons.
      + apply (HdB B); [done|left].
      + apply (HdA a); [done|by right]. }
  split; [|split].
  - intros t Ht. repeat case_decide; try done. apply Hlive. by apply Hlv.
  - intros t c x Ht. repeat case_decide; simplify_eq; try done.
    by apply Hother.
  - intros t1 t2 c1 x1 c2 x2 Hne12 H1 H2.
    repeat case_decide; simplify_eq;
      try done; try (by apply list_disjoint_sym); try (by eapply Hdisj);
      try (by eapply Hother);
      try (apply list_disjoint_sym; by eapply Hother).
Qed.

Lemma swap_total s A B :
  store_inv s → live s A → live s B → ∃ s', swap A B s = Ok tt s'.
Proof.
  intros Hinv HA HB.
  destruct (store_inv_list _ _ Hinv HA) as (cA & xA & HlA).
  destruct (decide (A = B)) as [->|Hne].
  { exists s. by eapply swap_self. }
  destruct (store_inv_list _ _ Hinv HB) as (cB & xB & HlB).
  pose proof (store_inv_disjoint _ _ _ _ _ _ _ Hinv Hne HlA HlB) as HdAB.
  destruct (swap_spec s A B cA xA cB xB (store_inv_addr_ok _ Hinv) HlA HlB HdAB)
    as (s' & Hrun & _). eauto.
Qed.

Lemma constructs_live this cells' xs' s s' t :
  constructs this cells' xs' s s' → live s' t ↔ t = this ∨ live s t.
Proof.
  intros (Hl' & _ & _ & _ & Hsz). unfold live.
  destruct (decide (t = this)) as [->|Hne].
  - split; [by left|]. intros _. by eapply is_list_is_live.
  - rewrite Hsz by done. split; [by right|]. by intros [?|?].
Qed.

Lemma store_inv_dtor s this :
  store_inv s → live s this →
  ∃ s', SingleLinkedList_dtor this s = Ok tt s' ∧ store_inv s' ∧
        (∀ t, live s' t ↔ t ≠ this ∧ live s t).
Proof.
  intros Hinv Hthis.
  destruct (store_inv_list _ _ Hinv Hthis) as (cells & xs & Hl).
  destruct (dtor_spec s this cells xs (store_inv_addr_ok _ Hinv) Hl)
    as (s' & Hrun & Hok' & Hgone & Hnosz & Hfr & Hsz).
  exists s'. split; [done|].
  destruct (store_inv_own _ _ _ _ Hinv Hl) as (own & Ho & Hlive & Hown & Hdisj).
  assert (Hlv : ∀ t, live s' t ↔ t ≠ this ∧ live s t).
  { intros t. unfold live. destruct (decide (t = this)) as [->|Hne].
    - rewrite Hnosz. split; [by intros [? ?]|by intros [? _]].
    - rewrite Hsz by done. split; [by intros ?|by intros [_ ?]]. }
  split; [|done]. split; [done|].
  exists (λ t, if decide (t = this) then None else own t).
  split; [|split].
  - intros t [Hne Ht]%Hlv. rewrite decide_False by done. by apply Hlive.
  - intros t c x Ht.
    assert (Hne : t ≠ this) by (intros ->; by rewrite decide_True in Ht).
    rewrite decide_False in Ht by done.
    pose proof (Hdisj t this c x cells xs Hne Ht Ho) as Hd.
    eapply is_list_frame; [by apply Hown| |by apply Hsz].
    intros a Ha. apply Hfr.
    + intros Hin. by apply (Hd a).
    + eapply is_list_live; [by apply Hown|done].
  - intros t1 t2 c1 x1 c2 x2 Hne H1 H2. repeat case_decide; try done.
    by eapply Hdisj.
Qed.

Lemma fuel_for_length s other cells xs fuel :
  is_list s other cells xs → fuel_for s other fuel → (length cells ≤ fuel)%nat.
Proof. intros (_ & _ & Hsz) Hfuel. specialize (Hfuel _ Hsz). lia. Qed.

Lemma store_inv_copy s fuel this other :
  store_inv s → fresh_object s this → live s other → fuel_for s other fuel →
  match SingleLinkedList_copy fuel this other s with
  | Ok _ s' => store_inv s' ∧ (∀ t, live s' t ↔ t = this ∨ live s t)
  | Throw s1 => store_inv s1
  | Undefined | OutOfFuel => False
  end.
Proof.
  intros Hinv Hfresh Hother Hfuel.
  destruct (store_inv_list _ _ Hinv Hother) as (cells & xs & Hl).
  pose proof (copy_spec s this other cells xs fuel (store_inv_addr_ok _ Hinv)
                Hfresh Hl (fuel_for_length _ _ _ _ _ Hl Hfuel)) as Hspec.
  destruct (SingleLinkedList_copy fuel this other s) as [[] s'|s1| |];
    try done.
  - destruct Hspec as (cells' & Hcon). split.
    + by eapply store_inv_constructs.
    + intros t. by eapply constructs_live.
  - destruct Hspec as (_ & c1 & x1 & Hcon). by eapply store_inv_constructs.
Qed.

Lemma store_inv_assign s fuel temp this rhs :
  store_inv s → live s this → live s rhs → fresh_object s temp →
  fuel_for s rhs fuel →
  match operator_assign fuel temp this rhs s with
  | Ok r s' => r = this ∧ store_inv s' ∧ (∀ t, live s' t ↔ live s t)
  | Throw s1 => store_inv s1
  | Undefined | OutOfFuel => False
  end.
Proof.
  intros Hinv Hthis Hrhs Hfresh Hfuel. unfold operator_assign.
  destruct (N.eqb_spec this rhs) as [->|Hne]; simpl; [done|].
  unfold bind at 1.
  pose proof (store_inv_copy s fuel temp rhs Hinv Hfresh Hrhs Hfuel) as Hcopy.
  destruct (SingleLinkedList_copy fuel temp rhs s) as [[] s1|s1| |];
    try done.
  destruct Hcopy as [Hinv1 Hlv1].
  assert (Hthis1 : live s1 this) by (apply Hlv1; by right).
  assert (Htemp1 : live s1 temp) by (apply Hlv1; by left).
  destruct (swap_total s1 this temp Hinv1 Hthis1 Htemp1) as (s2 & Hswap).
  destruct (store_inv_swap s1 s2 this temp Hinv1 Hthis1 Htemp1 Hswap)
    as [Hinv2 Hlv2].
  unfold bind at 1. rewrite Hswap.
  destruct (store_inv_dtor s2 temp Hinv2) as (s3 & Hdtor & Hinv3 & Hlv3);
    [by apply Hlv2|].
  unfold bind. rewrite Hdtor. unfold ret.
  split; [done|split; [done|]].
  intros t. rewrite Hlv3, Hlv2, Hlv1.
  destruct Hfresh as (_ & Hnosz & _). unfold live at 2.
  split; [intros [? [->|?]]; done|]. intros Ht. split; [|by right].
  intros ->. unfold live in Ht. rewrite Hnosz in Ht. by destruct Ht.
Qed.

(** ** Calls made within the contract, and the states they reach *)

Lemma nth_node_chain h : ∀ cells p xs k q,
  h !! nullptr = None →
  chain h p cells xs → nth_node h p k = Some q → cells !! k = Some q.
Proof.
  induction cells as [|c cells IH]; intros p xs k q Hnull Hch Hnth;
    inversion Hch as [|a x nxt cs ys Ha Hrest]; simplify_eq.
  - destruct k; simpl in Hnth; by rewrite Hnull in Hnth.
  - destruct k as [|k]; simpl in Hnth; rewrite Ha in Hnth; simpl in *.
    + by simplify_eq.
    + by eapply IH.
Qed.

Lemma addr_ok_null s : addr_ok s → nodes s !! nullptr = None.
Proof.
  intros Hok. destruct (nodes s !! nullptr) eqn:E; [|done].
  by destruct (Hok nullptr (mk_is_Some _ _ E)).
Qed.

Lemma references_position s this cells xs pos :
  addr_ok s → is_list s this cells xs → references s this pos →
  ∃ i, position this cells pos i.
Proof.
  intros Hok ([v0 Hch] & _) [k Hk]. exists k.
  eapply nth_node_chain; [by apply addr_ok_null|exact Hch|exact Hk].
Qed.

Lemma has_next_lookup s this cells xs pos i :
  is_list s this cells xs → position this cells pos i → has_next s pos →
  ∃ d, cells !! i = Some d.
Proof.
  intros ([v0 Hch] & _) Hpos (n & Hn & Hnext).
  destruct (chain_lookup _ _ _ _ _ _ Hch Hpos) as (x & nxt & Hp & _ & Hrest).
  rewrite Hn in Hp. simplify_eq. simpl in *.
  apply chain_head in Hrest. rewrite head_lookup, lookup_drop in Hrest.
  rewrite Nat.add_0_r in Hrest.
  destruct (cells !! i) as [d|]; [eauto|done].
Qed.

Lemma InsertAfter_throws s this cells xs pos i v :
  is_list s this cells xs → position this cells pos i →
  operator_new s = None →
  InsertAfter this pos v s = Throw s.
Proof.
  intros ([v0 Hch] & _) Hpos Hnew.
  destruct (chain_lookup _ _ _ _ _ _ Hch Hpos) as (x & nxt & Hp & _).
  by exec.
Qed.

(** A call made within its contract returns or leaves by [std::bad_alloc];
    either way the store invariant still holds. *)
Lemma call_preserves s c :
  store_inv s → call_pre s c →
  match run_call c s with
  | Ok _ s' | Throw s' => store_inv s'
  | Undefined | OutOfFuel => False
  end.
Proof.
  intros Hinv Hpre. pose proof (store_inv_addr_ok _ Hinv) as Hok.
  destruct c as [this|this values|fuel this other|fuel temp this rhs
                |this other|this pos v|this pos|this v|this|this|this];
    cbn [run_call call_pre] in *.
  - destruct (default_spec s this Hok Hpre) as (s' & -> & Hl & Hok' & Hn & Hsz).
    eapply (store_inv_constructs s s' this [] []); [done|].
    eapply constructs_intro; [done..|]. by apply updates_refl.
  - pose proof (init_spec s this values Hok Hpre) as Hspec.
    destruct (SingleLinkedList_init this values s) as [[] s'|s'| |];
      try done.
    + destruct Hspec as (c' & Hcon). by eapply store_inv_constructs.
    + destruct Hspec as (_ & c' & x' & Hcon). by eapply store_inv_constructs.
  - destruct Hpre as (Hfresh & Hother & Hfuel).
    pose proof (store_inv_copy s fuel this other Hinv Hfresh Hother Hfuel)
      as Hcopy.
    destruct (SingleLinkedList_copy fuel this other s) as [[] s'|s'| |];
      try done. by destruct Hcopy.
  - destruct Hpre as (Hthis & Hrhs & Hfresh & Hfuel).
    pose proof (store_inv_assign s fuel temp this rhs Hinv Hthis Hrhs
                  Hfresh Hfuel) as Hassign. unfold bind.
    destruct (operator_assign fuel temp this rhs s) as [r s'|s'| |];
      try done. simpl. by destruct Hassign as (_ & ? & _).
  - destruct Hpre as (Hthis & Hother).
    destruct (swap_total s this other Hinv Hthis Hother) as (s' & Hrun).
    rewrite Hrun.
    by destruct (store_inv_swap s s' this other Hinv Hthis Hother Hrun).
  - destruct Hpre as (Hthis & Href).
    destruct (store_inv_list _ _ Hinv Hthis) as (cells & xs & Hl).
    destruct (references_position _ _ _ _ _ Hok Hl Href) as [i Hpos].
    unfold bind. destruct (operator_new s) as [a|] eqn:Hnew.
    + destruct (InsertAfter_spec s this cells xs pos i a v Hok Hl Hpos Hnew)
        as (s' & -> & Hupd). simpl. by eapply store_inv_updates.
    + by rewrite (InsertAfter_throws s this cells xs pos i v).
  - destruct Hpre as (Hthis & Href & Hnext).
    destruct (store_inv_list _ _ Hinv Hthis) as (cells & xs & Hl).
    destruct (references_position _ _ _ _ _ Hok Hl Href) as [i Hpos].
    destruct (has_next_lookup _ _ _ _ _ _ Hl Hpos Hnext) as [d Hd].
    destruct (EraseAfter_spec s this cells xs pos i d Hok Hl Hpos Hd)
      as (s' & Hrun & Hupd).
    unfold bind. rewrite Hrun. simpl. by eapply store_inv_updates.
  - destruct (store_inv_list _ _ Hinv Hpre) as (cells & xs & Hl).
    destruct (operator_new s) as [a|] eqn:Hnew.
    + destruct (PushFront_spec s this cells xs a v Hok Hl Hnew)
        as (s' & -> & Hupd). by eapply store_inv_updates.
    + by rewrite (PushFront_throws s this cells xs v).
  - destruct Hpre as (Hthis & Hnonempty).
    destruct (store_inv_list _ _ Hinv Hthis) as (cells & xs & Hl).
    pose proof (is_list_length _ _ _ _ Hl) as Hlen.
    destruct cells as [|d cells].
    { destruct Hl as (_ & _ & Hsz). unfold IsEmpty, bind, load_size in *.
      rewrite Hsz in Hnonempty. by simplify_eq. }
    destruct xs as [|x xs]; [done|].
    destruct (PopFront_spec s this d cells x xs Hok Hl) as (s' & -> & Hupd).
    by eapply store_inv_updates.
  - destruct (store_inv_list _ _ Hinv Hpre) as (cells & xs & Hl).
    destruct (Clear_spec s this cells xs Hok Hl) as (s' & -> & Hupd).
    by eapply store_inv_updates.
  - destruct (store_inv_dtor s this Hinv Hpre) as (s' & -> & Hinv' & _).
    done.
Qed.

Lemma reachable_store_inv s : reachable s → store_inv s.
Proof.
  induction 1 as [|s c s' _ IH Hpre Hrun|s c s' _ IH Hpre Hrun].
  - split; [by intros a [? ?]|]. exists (λ _, None).
    split; [|split]; try done. by intros t [? ?].
  - pose proof (call_preserves s c IH Hpre) as Hstep.
    by rewrite Hrun in Hstep.
  - pose proof (call_preserves s c IH Hpre) as Hstep.
    by rewrite Hrun in Hstep.
Qed.

(** ** Comparisons *)

Lemma list_eqb_same_elements xs ys :
  list_eqb xs ys = true ↔ same_elements xs ys.
Proof.
  revert ys. induction xs as [|x xs IH]; intros [|y ys]; simpl.
  - split; [|done]. intros _. split; [done|]. intros i x y Hx. done.
  - split; [done|]. by intros [? _].
  - split; [done|]. by intros [? _].
  - rewrite andb_true_iff, IH. unfold same_elements. simpl. split.
    + intros (Hxy & Hlen & Hrest). split; [by f_equal|].
      intros [|i] x' y' Hx Hy; simpl in *; [by simplify_eq|]. by eapply Hrest.
    + intros (Hlen & Hall). split; [by apply (Hall 0%nat)|].
      split; [by simplify_eq|].
      intros i x' y' Hx Hy. by apply (Hall (S i)).
Qed.

Lemma list_ltb_lexicographic xs ys :
  list_ltb xs ys = true ↔ lexicographic_less xs ys.
Proof.
  revert ys. induction xs as [|x xs IH]; intros [|y ys]; simpl.
  - split; [done|]. inversion 1.
  - split; [constructor|done].
  - split; [done|]. inversion 1.
  - destruct (Type_lt x y) eqn:Hxy.
    { split; [by constructor|done]. }
    destruct (Type_lt y x) eqn:Hyx.
    { split; [done|]. inversion 1; congruence. }
    rewrite IH. split; [by constructor|]. inversion 1; [congruence|done].
Qed.

Lemma live_not_null s p n :
  addr_ok s → nodes s !! p = Some n → (p =? 0)%N = false.
Proof.
  intros Hok Hp. apply N.eqb_neq. apply (Hok p). eauto.
Qed.

Lemma std_equal_chain s c1 c2 p1 p2 xs ys fuel :
  addr_ok s → chain (nodes s) p1 c1 xs → chain (nodes s) p2 c2 ys →
  (length c1 ≤ fuel)%nat →
  std_equal fuel (Iterator p1) (Iterator nullptr)
            (Iterator p2) (Iterator nullptr) s
  = Ok (list_eqb xs ys) s.
Proof.
  intros Hok H1. revert c2 p2 ys fuel.
  induction H1 as [|a x nxt cells xs Ha H1 IH]; intros c2 p2 ys fuel H2 Hfuel.
  - inversion H2 as [|b y nb cs ys' Hb Hrest]; simplify_eq.
    + by destruct fuel.
    + pose proof (live_not_null _ _ _ Hok Hb) as Hnb.
      destruct p2; [done|]. by destruct fuel.
  - pose proof (live_not_null _ _ _ Hok Ha) as Hna.
    destruct fuel as [|fuel]; [simpl in Hfuel; lia|].
    destruct a as [|a]; [done|].
    inversion H2 as [|b y nb cs ys' Hb Hrest]; simplify_eq.
    + done.
    + pose proof (live_not_null _ _ _ Hok Hb) as Hnb.
      destruct p2 as [|b]; [done|]. simpl.
      unfold bind, iter_deref, iter_incr, load_value, bind, load_next, ret.
      simpl. repeat (exec_step; simpl).
      destruct (Type_eq x y); simpl; [|done].
      repeat (exec_step; simpl).
      apply IH with (c2 := cs); [done|simpl in Hfuel; lia].
Qed.

Lemma std_lexicographical_compare_chain s c1 c2 p1 p2 xs ys fuel :
  addr_ok s → chain (nodes s) p1 c1 xs → chain (nodes s) p2 c2 ys →
  (length c1 ≤ fuel)%nat →
  std_lexicographical_compare fuel (Iterator p1) (Iterator nullptr)
                              (Iterator p2) (Iterator nullptr) s
  = Ok (list_ltb xs ys) s.
Proof.
  intros Hok H1. revert c2 p2 ys fuel.
  induction H1 as [|a x nxt cells xs Ha H1 IH]; intros c2 p2 ys fuel H2 Hfuel.
  - inversion H2 as [|b y nb cs ys' Hb Hrest]; simplify_eq.
    + by destruct fuel.
    + pose proof (live_not_null _ _ _ Hok Hb) as Hnb.
      destruct p2; [done|]. by destruct fuel.
  - pose proof (live_not_null _ _ _ Hok Ha) as Hna.
    destruct fuel as [|fuel]; [simpl in Hfuel; lia|].
    destruct a as [|a]; [done|].
    inversion H2 as [|b y nb cs ys' Hb Hrest]; simplify_eq.
    + done.
    + pose proof (live_not_null _ _ _ Hok Hb) as Hnb.
      destruct p2 as [|b]; [done|]. simpl.
      unfold bind, iter_deref, iter_incr, load_value, bind, load_next, ret.
      simpl. repeat (exec_step; simpl).
      destruct (Type_lt x y); simpl; [done|].
      destruct (Type_lt y x); simpl; [done|].
      repeat (exec_step; simpl).
      apply IH with (c2 := cs); [done|simpl in Hfuel; lia].
Qed.

Lemma operator_eq_spec s fuel lhs rhs cL xL cR xR :
  addr_ok s → is_list s lhs cL xL → is_list s rhs cR xR →
  (length cL ≤ fuel)%nat →
  operator_eq fuel lhs rhs s = Ok (list_eqb xL xR) s.
Proof.
  intros Hok HL HR Hfuel. unfold operator_eq, bind.
  rewrite (begin_spec s lhs cL xL HL), (begin_spec s rhs cR xR HR).
  destruct (is_list_sentinel _ _ _ _ HL) as (? & _ & HchL).
  destruct (is_list_sentinel _ _ _ _ HR) as (? & _ & HchR).
  by eapply std_equal_chain.
Qed.

Lemma operator_lt_spec s fuel lhs rhs cL xL cR xR :
  addr_ok s → is_list s lhs cL xL → is_list s rhs cR xR →
  (length cL ≤ fuel)%nat →
  operator_lt fuel lhs rhs s = Ok (list_ltb xL xR) s.
Proof.
  intros Hok HL HR Hfuel. unfold operator_lt, bind.
  rewrite (begin_spec s lhs cL xL HL), (begin_spec s rhs cR xR HR).
  destruct (is_list_sentinel _ _ _ _ HL) as (? & _ & HchL).
  destruct (is_list_sentinel _ _ _ _ HR) as (? & _ & HchR).
  by eapply std_lexicographical_compare_chain.
Qed.

Lemma list_eqb_refl xs :
  (∀ x, x ∈ xs → Type_eq x x = true) → list_eqb xs xs = true.
Proof.
  induction xs as [|x xs IH]; intros Hrefl; simpl; [done|].
  rewrite Hrefl by left. apply IH. intros y Hy. apply Hrefl. by right.
Qed.

Lemma list_eqb_refl_inv xs :
  list_eqb xs xs = true → ∀ x, x ∈ xs → Type_eq x x = true.
Proof.
  induction xs as [|x xs IH]; simpl; intros Heq y Hy.
  - by apply elem_of_nil in Hy.
  - apply andb_true_iff in Heq as [Hx Hxs].
    apply elem_of_cons in Hy as [->|Hy]; [done|by apply IH].
Qed.

(** ** Copy assignment *)

Lemma assign_spec s fuel temp this rhs cT xT cR xR :
  addr_ok s → is_list s this cT xT → is_list s rhs cR xR →
  (this :: cT) ## (rhs :: cR) → fresh_object s temp →
  (length cR ≤ fuel)%nat →
  match operator_assign fuel temp this rhs s with
  | Ok r s' => r = this ∧ addr_ok s' ∧
               ∃ cells', is_list s' this cells' xR ∧ is_list s' rhs cR xR ∧
                         (this :: cells') ## (rhs :: cR)
  | Throw s1 => operator_new s1 = None ∧ is_list s1 this cT xT
  | Undefined | OutOfFuel => False
  end.
Proof.
  intros Hok HlT HlR Hdisj Hfresh Hfuel. unfold operator_assign.
  assert (Hne : this ≠ rhs) by (intros ->; apply (Hdisj rhs); left).
  destruct (N.eqb_spec this rhs) as [?|_]; [done|]. simpl.
  unfold bind at 1.
  pose proof (copy_spec s temp rhs cR xR fuel Hok Hfresh HlR Hfuel) as Hcopy.
  destruct (SingleLinkedList_copy fuel temp rhs s) as [[] s1|s1| |];
    try done.
  2:{ destruct Hcopy as (Hnone & c1 & x1 & Hcon). split; [done|].
      by eapply constructs_frame. }
  destruct Hcopy as (c' & Hcon).
  pose proof Hcon as (Hltemp & Hok1 & _).
  destruct (constructs_frame _ _ _ _ _ _ _ _ Hcon HlT) as [HlT1 HdT].
  destruct (constructs_frame _ _ _ _ _ _ _ _ Hcon HlR) as [HlR1 HdR].
  destruct (swap_spec s1 this temp cT xT c' xR Hok1 HlT1 Hltemp HdT)
    as (s2 & Hswap & HlT2 & Hltemp2 & Hok2 & Hn2 & Hsz2).
  unfold bind at 1. rewrite Hswap.
  pose proof HlT as (_ & [HT_cT _]%NoDup_cons & _).
  pose proof Hltemp as (_ & [Htemp_c' _]%NoDup_cons & _).
  assert (Htt : this ≠ temp) by (intros ->; apply (HdT temp); left).
  assert (Hrt : rhs ≠ temp) by (intros ->; apply (HdR temp); left).
  assert (HlR2 : is_list s2 rhs cR xR).
  { eapply is_list_frame; [exact HlR1| |by apply Hsz2].
    intros a Ha. apply Hn2; intros ->.
    - apply (Hdisj this); [left|done].
    - apply (HdR temp); [done|left]. }
  destruct (dtor_spec s2 temp cT xT Hok2 Hltemp2)
    as (s3 & Hdtor & Hok3 & _ & _ & Hfr3 & Hsz3).
  unfold bind. rewrite Hdtor. unfold ret.
  split; [done|split; [done|]]. exists c'. split; [|split].
  - eapply is_list_frame; [exact HlT2| |by apply Hsz3].
    intros a Ha. apply Hfr3; [|exact (is_list_live _ _ _ _ _ HlT2 Ha)].
    intros [->|Hin]%elem_of_cons.
    + apply elem_of_cons in Ha as [?|Ha]; [done|]. done.
    + apply elem_of_cons in Ha as [->|Ha]; [done|].
      apply (HdT a); by right.
  - eapply is_list_frame; [exact HlR2| |by apply Hsz3].
    intros a Ha. apply Hfr3; [|exact (is_list_live _ _ _ _ _ HlR2 Ha)].
    intros [->|Hin]%elem_of_cons.
    + apply (HdR temp); [done|left].
    + apply (Hdisj a); [by right|done].
  - intros a [->|Ha]%elem_of_cons Ha'.
    + apply (Hdisj this); [left|done].
    + apply (HdR a); [done|by right].
Qed.

(** ** Mutations of one list *)

Lemma mutation_updates s s' this c cells xs :
  addr_ok s → is_list s this cells xs →
  mutates this c → call_pre s c → run_call c s = Ok tt s' →
  ∃ cells' xs', updates this cells cells' xs' s s'.
Proof.
  intros Hok Hl Hmut Hpre Hrun.
  destruct c as [| | | | |t pos v|t pos|t v|t|t|]; simpl in Hmut;
    try done; subst t; cbn [run_call call_pre] in *.
  - destruct Hpre as (Hthis & Href).
    destruct (references_position _ _ _ _ _ Hok Hl Href) as [i Hpos].
    unfold bind in Hrun. destruct (operator_new s) as [a|] eqn:Hnew.
    + destruct (InsertAfter_spec s this cells xs pos i a v Hok Hl Hpos Hnew)
        as (s1 & Hrun1 & Hupd). rewrite Hrun1 in Hrun.
      unfold ret in Hrun. simplify_eq. eauto.
    + by rewrite (InsertAfter_throws s this cells xs pos i v) in Hrun.
  - destruct Hpre as (Hthis & Href & Hnext).
    destruct (references_position _ _ _ _ _ Hok Hl Href) as [i Hpos].
    destruct (has_next_lookup _ _ _ _ _ _ Hl Hpos Hnext) as [d Hd].
    destruct (EraseAfter_spec s this cells xs pos i d Hok Hl Hpos Hd)
      as (s1 & Hrun1 & Hupd).
    unfold bind in Hrun. rewrite Hrun1 in Hrun. unfold ret in Hrun.
    simplify_eq. eauto.
  - destruct (operator_new s) as [a|] eqn:Hnew.
    + destruct (PushFront_spec s this cells xs a v Hok Hl Hnew)
        as (s1 & Hrun1 & Hupd). rewrite Hrun1 in Hrun. simplify_eq. eauto.
    + by rewrite (PushFront_throws s this cells xs v) in Hrun.
  - destruct Hpre as (Hthis & Hnonempty).
    pose proof (is_list_length _ _ _ _ Hl) as Hlen.
    destruct cells as [|d cells].
    { destruct Hl as (_ & _ & Hsz). unfold IsEmpty, bind, load_size in *.
      rewrite Hsz in Hnonempty. by simplify_eq. }
    destruct xs as [|x xs]; [done|].
    destruct (PopFront_spec s this d cells x xs Hok Hl) as (s1 & Hrun1 & Hupd).
    rewrite Hrun1 in Hrun. simplify_eq. eauto.
  - destruct (Clear_spec s this cells xs Hok Hl) as (s1 & Hrun1 & Hupd).
    rewrite Hrun1 in Hrun. simplify_eq. eauto.
Qed.

Lemma mutated_frame this s s' :
  mutated this s s' →
  ∀ cells xs other c x,
    addr_ok s → is_list s this cells xs → is_list s other c x →
    (other :: c) ## (this :: cells) →
    is_list s' other c x.
Proof.
  induction 1 as [s|s m s1 s2 Hmut Hpre Hrun _ IH];
    intros cells xs other c x Hok Hl Hother Hdisj; [done|].
  destruct (mutation_updates s s1 this m cells xs Hok Hl Hmut Hpre Hrun)
    as (cells' & xs' & Hupd).
  destruct (updates_frame _ _ _ _ _ _ _ _ _ Hupd Hother Hdisj) as [Ho1 Hd1].
  pose proof Hupd as (Hl1 & Hok1 & _).
  by eapply IH.
Qed.

(** ** The bump allocator, and deciding facts about concrete stores *)

Lemma max_addr_bound (h : gmap N Node) a :
  is_Some (h !! a) → (a ≤ max_addr h)%N.
Proof.
  unfold max_addr. revert a.
  apply (map_fold_weak_ind
           (λ m (h : gmap N Node), ∀ a, is_Some (h !! a) → (a ≤ m)%N)).
  - intros a [? Ha]. by rewrite lookup_empty in Ha.
  - intros i x m r Hi IH a Ha.
    destruct (decide (a = i)) as [->|Hne]; [lia|].
    rewrite lookup_insert_ne in Ha by done. specialize (IH a Ha). lia.
Qed.

Lemma bump_new_fresh (s : Store) a :
  bump_new s = Some a →
  nodes s !! a = None ∧ a ≠ nullptr ∧ Z.of_N a ≤ SIZE_MAX.
Proof.
  unfold bump_new. case_decide as Hle; [|done]. intros [= <-].
  split; [|split; [unfold nullptr; lia|done]].
  destruct (nodes s !! N.succ (max_addr (nodes s))) eqn:E; [|done].
  pose proof (max_addr_bound (nodes s) _ (mk_is_Some _ _ E)). lia.
Qed.

Lemma addr_ok_decide (s : Store) :
  bool_decide (map_Forall (λ a _, a ≠ nullptr ∧ Z.of_N a ≤ SIZE_MAX) (nodes s))
  = true →
  addr_ok s.
Proof.
  intros H%bool_decide_eq_true_1 a [n Ha]. exact (H a n Ha).
Qed.

Lemma NoDup_decide (l : list N) : bool_decide (NoDup l) = true → NoDup l.
Proof. apply bool_decide_eq_true_1. Qed.

(** ** The specification's claims *)

Lemma constructs_traverse this cells' xs' s s' fuel :
  constructs this cells' xs' s s' → (length xs' ≤ fuel)%nat →
  traverse fuel this s' = Ok xs' s'.
Proof.
  intros (Hl & Hok & _) Hfuel. eapply traverse_spec; [done..|].
  by rewrite (is_list_length _ _ _ _ Hl).
Qed.

Lemma GetSize_spec s this cells xs :
  is_list s this cells xs → GetSize this s = Ok (Z.of_nat (length xs)) s.
Proof.
  intros Hl. pose proof (is_list_length _ _ _ _ Hl) as Hlen.
  destruct Hl as (_ & _ & Hsz). unfold GetSize, load_size.
  by rewrite Hsz, Hlen.
Qed.

(** C1. Constructing a list from a sequence [S] and then walking it from
    [begin()] to [end()] yields exactly [S], front to back: for the
    initializer-list constructor, and for [InitFromForwardRange] over any
    range whose elements, read into the vector, are [S].  The constructor
    returns unless [operator new] throws. *)
Theorem construct_then_traverse s this (S : list T) :
  addr_ok s → fresh_object s this →
  match SingleLinkedList_init this S s with
  | Ok _ s' =>
      ∀ fuel, (length S ≤ fuel)%nat → traverse fuel this s' = Ok S s'
  | Throw s1 => operator_new s1 = None
  | Undefined | OutOfFuel => False
  end ∧
  ∀ I (range : ForwardRange I) fuel0 (first last : I) s0,
    SingleLinkedList_default this s = Ok tt s0 →
    vector_ctor fuel0 first last s0 = Ok S s0 →
    match InitFromForwardRange fuel0 this first last s0 with
    | Ok _ s' =>
        ∀ fuel, (length S ≤ fuel)%nat → traverse fuel this s' = Ok S s'
    | Throw s1 => operator_new s1 = None
    | Undefined | OutOfFuel => False
    end.
Proof.
  intros Hok Hfresh. split.
  - pose proof (init_spec s this S Hok Hfresh) as Hspec.
    destruct (SingleLinkedList_init this S s) as [[] s'|s1| |]; try done.
    + destruct Hspec as (cells' & Hcon). intros fuel Hfuel.
      by eapply constructs_traverse.
    + by destruct Hspec.
  - intros I range fuel0 first last s0 Hdef Hvec.
    pose proof (InitFromForwardRange_spec fuel0 first last S s0 s this
                  Hfresh Hdef Hok Hvec) as Hspec.
    destruct (InitFromForwardRange fuel0 this first last s0)
      as [[] s'|s1| |]; try done.
    + destruct Hspec as (cells' & Hcon). intros fuel Hfuel.
      by eapply constructs_traverse.
    + by destruct Hspec.
Qed.

(** C2. In every state reached from the empty store by public operations
    called within their contracts, every live list is well formed: the
    chain from its sentinel is acyclic and ends in [nullptr], and [size_]
    is the number of real nodes on it.  Every further such call returns or
    throws [std::bad_alloc], and the lists are well formed afterwards. *)
Theorem size_and_chain_invariant s :
  reachable s →
  (∀ this, live s this → ∃ cells xs, is_list s this cells xs) ∧
  (∀ c, call_pre s c →
        match run_call c s with
        | Ok _ s' | Throw s' =>
            ∀ this, live s' this → ∃ cells xs, is_list s' this cells xs
        | Undefined | OutOfFuel => False
        end).
Proof.
  intros Hinv%reachable_store_inv. split.
  - intros this Hlive. by apply store_inv_list.
  - intros c Hpre. pose proof (call_preserves s c Hinv Hpre) as Hstep.
    destruct (run_call c s) as [[] s'|s'| |]; try done;
      intros this Hlive; by apply store_inv_list.
Qed.

(** C3. [InsertAfter(pos, value)], with [pos] on the [i]-th node of the
    list (the sentinel is node 0), puts [value] right after that node (at
    the front for [before_begin()]), keeps every other element in place,
    raises the size by exactly one and returns a position on the new node.
    It throws only when [operator new] does, and then changes nothing. *)
Theorem InsertAfter_inserts_after_pos s this cells xs pos i v :
  addr_ok s → is_list s this cells xs → position this cells pos i →
  match InsertAfter this pos v s with
  | Ok it s' =>
      let cells' := take i cells ++ node_ it :: drop i cells in
      operator_new s = Some (node_ it) ∧
      is_list s' this cells' (take i xs ++ v :: drop i xs) ∧
      position this cells' it (S i) ∧
      GetSize this s = Ok (Z.of_nat (length xs)) s ∧
      GetSize this s' = Ok (Z.of_nat (length xs) + 1) s' ∧
      (i = 0%nat → is_list s' this (node_ it :: cells) (v :: xs))
  | Throw s1 => s1 = s ∧ operator_new s = None
  | Undefined | OutOfFuel => False
  end.
Proof.
  intros Hok Hl Hpos. destruct (operator_new s) as [a|] eqn:Hnew.
  - destruct (InsertAfter_spec s this cells xs pos i a v Hok Hl Hpos Hnew)
      as (s' & -> & Hl' & _). simpl.
    assert (Hi : (i ≤ length cells)%nat).
    { apply lookup_lt_Some in Hpos. simpl in Hpos. lia. }
    split; [done|split; [done|split; [|split; [|split]]]].
    + unfold position. simpl.
      rewrite <- (length_take_le cells i) at 1 by done.
      apply list_lookup_middle. done.
    + by eapply GetSize_spec.
    + rewrite (GetSize_spec s' this _ _ Hl'). f_equal.
      rewrite length_app, length_take. simpl. rewrite length_drop.
      pose proof (is_list_length _ _ _ _ Hl). lia.
    + intros ->. by rewrite !take_0, !drop_0 in Hl'.
  - by rewrite (InsertAfter_throws s this cells xs pos i v).
Qed.

(** C4. [EraseAfter(pos)], with [pos] on the [i]-th node of the list and a
    node after it, removes exactly the element after [pos], lowers the
    size by exactly one and returns a position on the node that now
    follows [pos], or [end()] when none does. *)
Theorem EraseAfter_erases_after_pos s this cells xs pos i :
  addr_ok s → is_list s this cells xs → position this cells pos i →
  has_next s pos →
  ∃ it s',
    EraseAfter this pos s = Ok it s' ∧
    is_list s' this (delete i cells) (delete i xs) ∧
    GetSize this s = Ok (Z.of_nat (length xs)) s ∧
    GetSize this s' = Ok (Z.of_nat (length xs) - 1) s' ∧
    match cells !! S i with
    | Some after => node_ it = after ∧ position this (delete i cells) it (S i)
    | None => it = end_ this
    end.
Proof.
  intros Hok Hl Hpos Hnext.
  destruct (has_next_lookup _ _ _ _ _ _ Hl Hpos Hnext) as [d Hd].
  destruct (EraseAfter_spec s this cells xs pos i d Hok Hl Hpos Hd)
    as (s' & Hrun & Hl' & _).
  eexists _, s'. split; [exact Hrun|].
  pose proof (is_list_length _ _ _ _ Hl) as Hlen.
  split; [done|split; [by eapply GetSize_spec|split]].
  - rewrite (GetSize_spec s' this _ _ Hl'). f_equal.
    apply lookup_lt_Some in Hd.
    rewrite length_delete; [lia|]. apply lookup_lt_is_Some. lia.
  - destruct (cells !! S i) as [after|] eqn:Hafter; simpl; [|done].
    split; [done|]. unfold position. simpl.
    rewrite list_lookup_delete_ge by lia. done.
Qed.

(** C5. [PushFront(value)] leaves the store exactly as
    [InsertAfter(before_begin(), value)] does, and on a non-empty list
    [PopFront()] returns and leaves the store exactly as
    [EraseAfter(before_begin())] does: the first element is gone. *)
Theorem PushFront_PopFront_equivalent :
  (∀ s this v,
     PushFront this v s
     = (run InsertAfter this (before_begin this) v; ret tt) s) ∧
  (∀ s this cells xs,
     addr_ok s → is_list s this cells xs → xs ≠ [] →
     PopFront this s = (run EraseAfter this (before_begin this); ret tt) s ∧
     ∃ s', PopFront this s = Ok tt s' ∧
           is_list s' this (tail cells) (tail xs)).
Proof.
  split; [intros s this v; apply PushFront_as_InsertAfter|].
  intros s this cells xs Hok Hl Hne.
  split; [by eapply PopFront_as_EraseAfter|].
  pose proof (is_list_length _ _ _ _ Hl) as Hlen.
  destruct xs as [|x xs]; [done|]. destruct cells as [|d cells]; [done|].
  destruct (PopFront_spec s this d cells x xs Hok Hl) as (s' & Hrun & Hl' & _).
  eauto.
Qed.

Lemma independent_copy_intro s fuel L L2 cells cells2 xs :
  addr_ok s → is_list s L cells xs → is_list s L2 cells2 xs →
  (L2 :: cells2) ## (L :: cells) → (length cells ≤ fuel)%nat →
  independent_copy s fuel L L2 cells xs.
Proof.
  intros Hok HL HL2 Hdisj Hfuel.
  split; [done|split; [eauto|split; [|split]]].
  - by rewrite (GetSize_spec _ _ _ _ HL), (GetSize_spec _ _ _ _ HL2).
  - exists (list_eqb xs xs).
    split; [by apply (operator_eq_spec s fuel L L2 cells xs cells2 xs)|].
    split; [apply list_eqb_refl_inv|apply list_eqb_refl].
  - intros s' Hmut.
    eapply (mutated_frame L2 s s' Hmut cells2 xs L cells xs); try done.
    by apply list_disjoint_sym.
Qed.

(** C6, amended. Copy construction, and copy assignment, give a list with
    the same elements in the same order and the same size as the source,
    sharing no node with it; the source is untouched by the copy and by
    any later [PushFront], [PopFront], [InsertAfter], [EraseAfter] or
    [Clear] on the copy.  [L == L2] is [true] exactly when every element of
    [L] is [==] to itself, so not for every list.  Both operations return
    unless [operator new] throws. *)
Theorem copy_is_independent s fuel L cells xs :
  addr_ok s → is_list s L cells xs → (length cells ≤ fuel)%nat →
  (∀ L2, fresh_object s L2 →
     match SingleLinkedList_copy fuel L2 L s with
     | Ok _ s' => independent_copy s' fuel L L2 cells xs
     | Throw s1 => operator_new s1 = None
     | Undefined | OutOfFuel => False
     end) ∧
  (∀ L2 temp cells2 xs2,
     is_list s L2 cells2 xs2 → (L2 :: cells2) ## (L :: cells) →
     fresh_object s temp →
     match operator_assign fuel temp L2 L s with
     | Ok r s' => r = L2 ∧ independent_copy s' fuel L L2 cells xs
     | Throw s1 => operator_new s1 = None
     | Undefined | OutOfFuel => False
     end).
Proof.
  intros Hok HL Hfuel. split.
  - intros L2 Hfresh.
    pose proof (copy_spec s L2 L cells xs fuel Hok Hfresh HL Hfuel) as Hspec.
    destruct (SingleLinkedList_copy fuel L2 L s) as [[] s'|s1| |]; try done.
    + destruct Hspec as (cells2 & Hcon).
      destruct (constructs_frame _ _ _ _ _ _ _ _ Hcon HL) as [HL' Hdisj].
      pose proof Hcon as (HL2 & Hok' & _).
      eapply independent_copy_intro; try done.
      by apply list_disjoint_sym.
    + by destruct Hspec.
  - intros L2 temp cells2 xs2 HL2 Hdisj Hfresh.
    pose proof (assign_spec s fuel temp L2 L cells2 xs2 cells xs Hok HL2 HL
                  Hdisj Hfresh Hfuel) as Hspec.
    destruct (operator_assign fuel temp L2 L s) as [r s'|s1| |]; try done.
    + destruct Hspec as (-> & Hok' & cells' & HL2' & HL' & Hdisj').
      split; [done|]. by eapply independent_copy_intro.
    + by destruct Hspec.
Qed.

(** C7. Self-assignment [L = L] does nothing: it returns [*this] and the
    store, hence the elements and the size of [L], is as before. *)
Theorem self_assignment_noop s fuel temp this :
  operator_assign fuel temp this this s = Ok this s ∧
  traverse fuel this s
  = (run operator_assign fuel temp this this; traverse fuel this) s ∧
  GetSize this s = (run operator_assign fuel temp this this; GetSize this) s.
Proof.
  assert (H : operator_assign fuel temp this this s = Ok this s).
  { unfold operator_assign. by rewrite N.eqb_refl. }
  unfold bind. by rewrite H.
Qed.

(** C8. [operator==] is [true] exactly when the two lists have the same
    length and equal elements, position by position; [operator!=] is its
    negation.  Two empty lists are equal, and lists of different sizes
    never are, even when one is a prefix of the other. *)
Theorem operator_eq_iff s fuel lhs rhs cL xL cR xR :
  addr_ok s → is_list s lhs cL xL → is_list s rhs cR xR →
  (length cL ≤ fuel)%nat →
  ∃ b, operator_eq fuel lhs rhs s = Ok b s ∧
       operator_ne fuel lhs rhs s = Ok (negb b) s ∧
       (b = true ↔ same_elements xL xR) ∧
       (xL = [] → xR = [] → b = true) ∧
       (length xL ≠ length xR → b = false).
Proof.
  intros Hok HL HR Hfuel. exists (list_eqb xL xR).
  pose proof (operator_eq_spec s fuel lhs rhs cL xL cR xR Hok HL HR Hfuel)
    as Heq.
  split; [done|split; [|split; [|split]]].
  - unfold operator_ne, bind. by rewrite Heq.
  - apply list_eqb_same_elements.
  - by intros -> ->.
  - intros Hlen. destruct (list_eqb xL xR) eqn:E; [|done].
    apply list_eqb_same_elements in E as [? _]. done.
Qed.

(** C10. A default-constructed iterator holds [nullptr]; it compares equal
    to [end()] and [cend()] of every list, and never to [begin()] of a
    non-empty list. *)
Theorem default_iterator_is_end :
  node_ BasicIterator_default = nullptr ∧
  (∀ this, iter_eq BasicIterator_default (end_ this) = true ∧
           iter_eq BasicIterator_default (cend this) = true ∧
           iter_ne BasicIterator_default (end_ this) = false ∧
           iter_ne BasicIterator_default (cend this) = false) ∧
  (∀ s this cells xs,
     addr_ok s → is_list s this cells xs → xs ≠ [] →
     ∃ first, begin this s = Ok first s ∧ cbegin this s = Ok first s ∧
              iter_eq BasicIterator_default first = false ∧
              iter_ne BasicIterator_default first = true).
Proof.
  split; [done|split; [done|]].
  intros s this cells xs Hok Hl Hne.
  pose proof (is_list_length _ _ _ _ Hl) as Hlen.
  destruct cells as [|d cells]; [by destruct xs|].
  exists (Iterator d). split; [by apply (begin_spec s this (d :: cells) xs)|].
  split; [by apply (begin_spec s this (d :: cells) xs)|].
  assert (Hd : d ≠ nullptr).
  { apply Hok. eapply is_list_live; [exact Hl|]. right. left. }
  unfold iter_eq, iter_ne, BasicIterator_default, nullptr in *. simpl.
  destruct d; done.
Qed.

Lemma ordering_spec s fuel lhs rhs cL xL cR xR :
  addr_ok s → is_list s lhs cL xL → is_list s rhs cR xR →
  (length cL ≤ fuel)%nat → (length cR ≤ fuel)%nat →
  ∃ lt gt,
    operator_lt fuel lhs rhs s = Ok lt s ∧
    operator_gt fuel lhs rhs s = Ok gt s ∧
    operator_le fuel lhs rhs s = Ok (negb gt) s ∧
    operator_ge fuel lhs rhs s = Ok (negb lt) s ∧
    (lt = true ↔ lexicographic_less xL xR) ∧
    (gt = true ↔ lexicographic_less xR xL).
Proof.
  intros Hok HL HR HfL HfR. exists (list_ltb xL xR), (list_ltb xR xL).
  pose proof (operator_lt_spec s fuel lhs rhs cL xL cR xR Hok HL HR HfL) as Hlt.
  pose proof (operator_lt_spec s fuel rhs lhs cR xR cL xL Hok HR HL HfR) as Hgt.
  unfold operator_gt, operator_le, operator_ge, bind. rewrite Hlt, Hgt.
  repeat split; try done; by apply list_ltb_lexicographic.
Qed.

(** ** Exact stores: what is freed and what is left *)

Lemma PopFront_store s this d cells x xs :
  addr_ok s → is_list s this (d :: cells) (x :: xs) →
  ∃ v0 after,
    nodes s !! this = Some (mkNode v0 d) ∧
    nodes s !! d = Some (mkNode x after) ∧
    this ≠ d ∧
    PopFront this s
    = Ok tt (mkStore (delete d (<[this := mkNode v0 after]> (nodes s)))
                     (<[this := Z.of_nat (length cells)]> (size_ s))).
Proof.
  intros Hok Hl.
  destruct (is_list_sentinel _ _ _ _ Hl) as (v0 & Hhd & Hch). simpl in *.
  inversion Hch as [|d' y after cs ys Hd Hrest]; simplify_eq.
  pose proof Hl as (_ & Hnd & Hsz).
  assert (this ≠ d).
  { apply NoDup_cons in Hnd as [Hnd _]. intros ->. apply Hnd. left. }
  assert (d ≠ nullptr) by (apply Hok; eauto).
  pose proof (is_list_size_bound _ _ _ _ Hok Hl) as Hbound. simpl in Hbound.
  exists v0, after. split; [done|split; [done|split; [done|]]].
  exec. do 3 f_equal. rewrite size_t_small; lia.
Qed.

Lemma Clear_loop_exact cells : ∀ s this xs fuel,
  addr_ok s → is_list s this cells xs → (length cells ≤ fuel)%nat →
  ∃ s', Clear_loop fuel this s = Ok tt s' ∧
        (∀ a, nodes s' !! a
              = if decide (a = this)
                then (λ n, mkNode (value n) nullptr) <$> nodes s !! this
                else if decide (a ∈ cells) then None else nodes s !! a) ∧
        (∀ t, size_ s' !! t
              = if decide (t = this) then Some 0 else size_ s !! t).
Proof.
  induction cells as [|d cells IH]; intros s this xs fuel Hok Hl Hfuel.
  - pose proof (is_list_length _ _ _ _ Hl) as Hlen.
    destruct xs; [|done]. exists s.
    destruct (is_list_sentinel _ _ _ _ Hl) as (v0 & Hhd & _).
    pose proof Hl as (_ & _ & Hsz). simpl in *.
    split; [|split].
    + destruct fuel; simpl; unfold bind, load_size; by rewrite Hsz.
    + intros a. case_decide as Ha; [subst a; by rewrite Hhd|].
      first [done|case_decide as Hin; [by apply elem_of_nil in Hin|done]].
    + intros t. case_decide as Ht; [by subst t|done].
  - pose proof (is_list_length _ _ _ _ Hl) as Hlen.
    destruct xs as [|x xs]; [done|].
    destruct fuel as [|fuel]; [simpl in Hfuel; lia|].
    rewrite (Clear_loop_step s this d cells x xs fuel Hok Hl).
    destruct (PopFront_store s this d cells x xs Hok Hl)
      as (v0 & after & Hhd & Hd & Hne & Hpop).
    destruct (PopFront_spec s this d cells x xs Hok Hl) as (s1 & Hpop' & Hupd).
    pose proof Hupd as (Hl1 & Hok1 & _).
    unfold bind at 1. rewrite Hpop'. rewrite Hpop in Hpop'. simplify_eq.
    destruct (IH _ this xs fuel Hok1 Hl1) as (s2 & Hrun & Hn2 & Hs2);
      [simpl in Hfuel; lia|].
    exists s2. split; [done|]. simpl in *.
    pose proof Hl as (_ & [_ [Hd_cells _]%NoDup_cons]%NoDup_cons & _).
    split.
    + intros a. rewrite Hn2.
      destruct (decide (a = this)) as [->|Ha].
      { rewrite lookup_delete_ne, lookup_insert_eq, Hhd by done. done. }
      destruct (decide (a = d)) as [->|Had].
      { rewrite decide_False by done. rewrite lookup_delete_eq.
        rewrite decide_True; [done|left]. }
      rewrite lookup_delete_ne, lookup_insert_ne by done.
      destruct (decide (a ∈ cells)) as [Hin|Hnin].
      * rewrite decide_True; [done|by right].
      * rewrite decide_False; [done|].
        by intros [?|?]%elem_of_cons.
    + intros t. rewrite Hs2. case_decide; [done|].
      by rewrite lookup_insert_ne.
Qed.

Lemma Clear_exact s this cells xs :
  addr_ok s → is_list s this cells xs →
  ∃ s', Clear this s = Ok tt s' ∧
        is_list s' this [] [] ∧ addr_ok s' ∧
        (∀ a, a ∈ cells → nodes s' !! a = None) ∧
        (∀ a, a ∉ this :: cells → nodes s' !! a = nodes s !! a) ∧
        (∀ t, t ≠ this → size_ s' !! t = size_ s !! t).
Proof.
  intros Hok Hl. pose proof Hl as (_ & [Hthis _]%NoDup_cons & Hsz).
  destruct (Clear_spec s this cells xs Hok Hl) as (s' & Hrun & Hl' & Hok' & _).
  exists s'. split; [done|split; [done|split; [done|]]].
  destruct (Clear_loop_exact cells s this xs (length cells) Hok Hl)
    as (s'' & Hrun' & Hn & Hs); [done|].
  unfold Clear, bind, load_size in Hrun. rewrite Hsz, Nat2Z.id in Hrun.
  rewrite Hrun' in Hrun. simplify_eq.
  split; [|split].
  - intros a Ha. rewrite Hn. rewrite decide_False by (by intros ->).
    by rewrite decide_True.
  - intros a Ha. rewrite Hn. rewrite !decide_False; [done| |].
    + intros Hin. apply Ha. by right.
    + intros ->. apply Ha. left.
  - intros t Ht. rewrite Hs. by rewrite decide_False.
Qed.

Lemma dtor_exact s this cells xs :
  addr_ok s → is_list s this cells xs →
  ∃ s', SingleLinkedList_dtor this s = Ok tt s' ∧ addr_ok s' ∧
        (∀ a, a ∈ this :: cells → nodes s' !! a = None) ∧
        (∀ a, a ∉ this :: cells → nodes s' !! a = nodes s !! a) ∧
        size_ s' !! this = None ∧
        (∀ t, t ≠ this → size_ s' !! t = size_ s !! t).
Proof.
  intros Hok Hl.
  destruct (Clear_exact s this cells xs Hok Hl)
    as (s1 & Hclear & _ & Hok1 & Hfreed & Hkept & Hsz).
  eexists. split.
  { unfold SingleLinkedList_dtor, bind. rewrite Hclear. reflexivity. }
  unfold head_. simpl. split; [|split; [|split; [|split]]].
  - intros a. simpl. intros Ha.
    destruct (decide (a = this)) as [->|?];
      [by rewrite lookup_delete_eq in Ha; destruct Ha|].
    rewrite lookup_delete_ne in Ha by done. by apply Hok1.
  - intros a [->|Ha]%elem_of_cons; [by rewrite lookup_delete_eq|].
    destruct (decide (a = this)) as [->|?]; [by rewrite lookup_delete_eq|].
    rewrite lookup_delete_ne by done. by apply Hfreed.
  - intros a Ha. rewrite lookup_delete_ne; [by apply Hkept|].
    intros ->. apply Ha. left.
  - by rewrite lookup_delete_eq.
  - intros t Ht. rewrite lookup_delete_ne by done. by apply Hsz.
Qed.

Lemma swap_store s A B cA xA cB xB :
  is_list s A cA xA → is_list s B cB xB → A ≠ B →
  ∃ vA vB,
    nodes s !! A = Some (mkNode vA (default nullptr (head cA))) ∧
    nodes s !! B = Some (mkNode vB (default nullptr (head cB))) ∧
    swap A B s
    = Ok tt (mkStore
               (<[B := mkNode vB (default nullptr (head cA))]>
                  (<[A := mkNode vA (default nullptr (head cB))]> (nodes s)))
               (<[B := Z.of_nat (length cA)]>
                  (<[A := Z.of_nat (length cB)]> (size_ s)))).
Proof.
  intros HA HB Hne.
  destruct (is_list_sentinel _ _ _ _ HA) as (vA & HhA & _).
  destruct (is_list_sentinel _ _ _ _ HB) as (vB & HhB & _).
  pose proof HA as (_ & _ & HszA). pose proof HB as (_ & _ & HszB).
  exists vA, vB. split; [done|split; [done|]]. by exec.
Qed.

(** ** Properties of the rest of the interface *)

(** X1. [Clear()] on a well-formed list returns and leaves it empty:
    [IsEmpty()] is [true], [GetSize()] is 0 and a walk yields nothing.
    Every node the list had is freed, and no other node is touched. *)
Theorem Clear_empties_and_frees s this cells xs :
  addr_ok s → is_list s this cells xs →
  ∃ s', Clear this s = Ok tt s' ∧
        is_list s' this [] [] ∧
        IsEmpty this s' = Ok true s' ∧
        GetSize this s' = Ok 0 s' ∧
        (∀ fuel, traverse fuel this s' = Ok [] s') ∧
        (∀ a, a ∈ cells → nodes s' !! a = None) ∧
        (∀ a, a ∉ this :: cells → nodes s' !! a = nodes s !! a).
Proof.
  intros Hok Hl.
  destruct (Clear_exact s this cells xs Hok Hl)
    as (s' & Hrun & Hl' & Hok' & Hfreed & Hkept & _).
  exists s'. split; [done|split; [done|]].
  pose proof Hl' as (_ & _ & Hsz). simpl in Hsz.
  split; [|split; [|split; [|done]]].
  - unfold IsEmpty, bind, load_size. by rewrite Hsz.
  - unfold GetSize, load_size. by rewrite Hsz.
  - intros fuel. apply (traverse_spec s' this [] []); [done..|simpl; lia].
Qed.

(** X2. The destructor returns, frees the sentinel and every node of the
    list, and removes the object: its storage can be constructed on again.
    No other node and no other list's size is touched. *)
Theorem destructor_releases_everything s this cells xs :
  addr_ok s → is_list s this cells xs →
  ∃ s', SingleLinkedList_dtor this s = Ok tt s' ∧
        fresh_object s' this ∧
        (∀ a, a ∈ this :: cells → nodes s' !! a = None) ∧
        (∀ a, a ∉ this :: cells → nodes s' !! a = nodes s !! a) ∧
        (∀ t, t ≠ this → size_ s' !! t = size_ s !! t).
Proof.
  intros Hok Hl.
  destruct (dtor_exact s this cells xs Hok Hl)
    as (s' & Hrun & Hok' & Hfreed & Hkept & Hnosz & Hsz).
  exists s'. split; [done|split; [|done]].
  destruct (Hok this) as [Hnn Hrange];
    [eapply is_list_live; [exact Hl|left]|].
  split; [apply Hfreed; left|done].
Qed.

(** X3. [swap], as a member and as the free function, exchanges the
    contents of two lists: each ends up with the other's nodes, values and
    size.  Only the two sentinels are written: no node is allocated, freed
    or changed, and no other list's size is touched. *)
Theorem swap_exchanges_contents s A B cA xA cB xB :
  addr_ok s → is_list s A cA xA → is_list s B cB xB →
  (A :: cA) ## (B :: cB) →
  ∃ s', swap A B s = Ok tt s' ∧ free_swap A B s = Ok tt s' ∧
        is_list s' A cB xB ∧ is_list s' B cA xA ∧
        (∀ a, a ≠ A → a ≠ B → nodes s' !! a = nodes s !! a) ∧
        (∀ a, is_Some (nodes s' !! a) ↔ is_Some (nodes s !! a)) ∧
        (∀ t, t ≠ A → t ≠ B → size_ s' !! t = size_ s !! t).
Proof.
  intros Hok HA HB Hdisj.
  destruct (swap_spec s A B cA xA cB xB Hok HA HB Hdisj)
    as (s' & Hrun & HA' & HB' & _ & Hnodes & Hsz).
  exists s'. split; [done|split; [done|split; [done|split; [done|]]]].
  split; [done|split; [|done]].
  intros a. destruct (decide (a = A)) as [->|HaA].
  { split; intros _;
      [apply (is_list_live _ _ _ _ A HA)|apply (is_list_live _ _ _ _ A HA')];
      left. }
  destruct (decide (a = B)) as [->|HaB].
  { split; intros _;
      [apply (is_list_live _ _ _ _ B HB)|apply (is_list_live _ _ _ _ B HB')];
      left. }
  by rewrite Hnodes.
Qed.

(** X4. Swapping two lists twice puts the store back exactly as it was;
    [a.swap(b)] and [b.swap(a)] leave the same store; and swapping a list
    with itself changes nothing. *)
Theorem swap_twice_restores s A B cA xA cB xB :
  is_list s A cA xA → is_list s B cB xB → A ≠ B →
  (run swap A B; swap A B) s = Ok tt s ∧
  swap A B s = swap B A s ∧
  swap A A s = Ok tt s.
Proof.
  intros HA HB Hne.
  destruct (swap_store s A B cA xA cB xB HA HB Hne) as (vA & vB & HhA & HhB & Hab).
  destruct (swap_store s B A cB xB cA xA HB HA) as (vB' & vA' & HhB' & HhA' & Hba);
    [done|].
  pose proof HA as (_ & _ & HszA). pose proof HB as (_ & _ & HszB).
  rewrite HhA in HhA'. rewrite HhB in HhB'. simplify_eq.
  split; [|split; [|by eapply swap_self]].
  - unfold bind at 1. rewrite Hab. exec. f_equal.
    apply Store_eq; simpl; intros a.
    + destruct (decide (a = B)) as [->|?]; [by exec|].
      destruct (decide (a = A)) as [->|?]; by exec.
    + destruct (decide (a = B)) as [->|?]; [by exec|].
      destruct (decide (a = A)) as [->|?]; by exec.
  - rewrite Hab, Hba. f_equal.
    apply Store_eq; simpl; intros a.
    + destruct (decide (a = B)) as [->|?]; [by exec|].
      destruct (decide (a = A)) as [->|?]; by exec.
    + destruct (decide (a = B)) as [->|?]; [by exec|].
      destruct (decide (a = A)) as [->|?]; by exec.
Qed.

(** X5. On a well-formed list [IsEmpty()] is [true] exactly when the list
    has no element, which is exactly when [begin() == end()] and exactly
    when [GetSize()] is 0. *)
Theorem IsEmpty_iff_no_elements s this cells xs :
  addr_ok s → is_list s this cells xs →
  ∃ b first,
    IsEmpty this s = Ok b s ∧
    begin this s = Ok first s ∧
    iter_eq first (end_ this) = b ∧
    (b = true ↔ xs = []) ∧
    (b = true ↔ GetSize this s = Ok 0 s).
Proof.
  intros Hok Hl.
  pose proof (is_list_length _ _ _ _ Hl) as Hlen.
  pose proof Hl as (_ & _ & Hsz).
  rewrite (begin_spec s this cells xs Hl).
  unfold IsEmpty, GetSize, bind, load_size, ret. rewrite Hsz.
  destruct cells as [|d cells]; destruct xs as [|x xs]; try done; simpl.
  - exists true, (Iterator nullptr). done.
  - exists false, (Iterator d).
    assert (Hd : d ≠ nullptr).
    { apply Hok. eapply is_list_live; [exact Hl|]. right. left. }
    split; [done|split; [done|split]].
    + unfold iter_eq, end_, nullptr in *. simpl. by destruct d.
    + split; [split; done|]. split; [done|]. intros [=].
Qed.

Lemma advance_chain s : ∀ k p cells xs,
  chain (nodes s) p cells xs → (k ≤ length cells)%nat →
  advance k (Iterator p) s = Ok (Iterator (default nullptr (cells !! k))) s.
Proof.
  induction k as [|k IH]; intros p cells xs Hch Hk.
  - simpl. unfold ret. rewrite <- head_lookup.
    by rewrite <- (chain_head _ _ _ _ Hch).
  - inversion Hch as [|a x nxt cs ys Ha Hrest]; simplify_eq;
      [simpl in Hk; lia|].
    simpl. unfold bind, iter_incr, bind, load_next, ret. simpl. rewrite Ha.
    simpl. apply (IH nxt cs ys Hrest). simpl in Hk. lia.
Qed.

Lemma advance_past_end s p cells xs :
  nodes s !! nullptr = None → chain (nodes s) p cells xs →
  advance (S (length cells)) (Iterator p) s = Undefined.
Proof.
  intros Hnull. induction 1 as [|a x nxt cells xs Ha _ IH].
  - simpl. unfold bind, iter_incr, bind, load_next. simpl. by rewrite Hnull.
  - change (advance (S (length (a :: cells))) (Iterator a) s)
      with ((do nxt <- iter_incr (Iterator a);
             advance (S (length cells)) nxt) s).
    unfold bind at 1. unfold iter_incr, bind, load_next, ret. simpl.
    rewrite Ha. simpl. exact IH.
Qed.

Lemma chain_set_value h p cells xs k c x nxt v :
  chain h p cells xs → NoDup cells →
  cells !! k = Some c → h !! c = Some (mkNode x nxt) →
  chain (<[c := mkNode v nxt]> h) p cells (<[k := v]> xs).
Proof.
  intros Hch. revert k.
  induction Hch as [|b y nb cells xs Hb Hch IH]; intros k Hnd Hk Hc; [done|].
  apply NoDup_cons in Hnd as [Hb_notin Hnd].
  destruct k as [|k]; simpl in *.
  - simplify_eq. econstructor; [by rewrite lookup_insert_eq|].
    eapply chain_frame; [exact Hch|].
    intros d Hd. rewrite lookup_insert_ne; [done|]. by intros ->.
  - assert (c ∈ cells) by (eapply list_elem_of_lookup_2; eauto).
    econstructor; [|by apply IH].
    rewrite lookup_insert_ne; [done|]. by intros ->.
Qed.

(** X6. Iterators walk the chain: [++before_begin()] is [begin()]; [k]
    increments from [begin()] reach the [k]-th node, where [*it] is the
    [k]-th element; as many increments as there are elements reach
    [end()]; and [it++] returns the old position and leaves [it] on the
    next node. *)
Theorem iterators_walk_the_chain s this cells xs :
  addr_ok s → is_list s this cells xs →
  iter_incr (before_begin this) s = begin this s ∧
  (∀ k, (k ≤ length cells)%nat →
        (do b <- begin this; advance k b) s
        = Ok (Iterator (default nullptr (cells !! k))) s) ∧
  (do b <- begin this; advance (length xs) b) s = Ok (end_ this) s ∧
  (∀ k x, xs !! k = Some x →
          (do b <- begin this; do it <- advance k b; iter_deref it) s
          = Ok x s) ∧
  (∀ k c, cells !! k = Some c →
          iter_post_incr (Iterator c) s
          = Ok (Iterator c, Iterator (default nullptr (cells !! S k))) s).
Proof.
  intros Hok Hl.
  destruct (is_list_sentinel _ _ _ _ Hl) as (v0 & Hhd & Hch).
  pose proof (is_list_length _ _ _ _ Hl) as Hlen.
  assert (Hadv : ∀ k, (k ≤ length cells)%nat →
            (do b <- begin this; advance k b) s
            = Ok (Iterator (default nullptr (cells !! k))) s).
  { intros k Hk. unfold bind. rewrite (begin_spec s this cells xs Hl).
    by apply (advance_chain s k _ cells xs). }
  split; [done|split; [done|split; [|split]]].
  - rewrite <- Hlen, Hadv by done.
    by rewrite lookup_ge_None_2.
  - intros k x Hx.
    assert (Hk : (k < length cells)%nat).
    { rewrite Hlen. by eapply lookup_lt_Some. }
    destruct (lookup_lt_is_Some_2 cells k Hk) as [c Hc].
    destruct (chain_lookup _ _ _ _ _ _ Hch Hc) as (x' & nxt & Hn & Hx' & _).
    rewrite Hx in Hx'. simplify_eq.
    specialize (Hadv k ltac:(lia)). unfold bind in *.
    destruct (begin this s) as [b s0| | |]; try done.
    rewrite Hadv, Hc. simpl. unfold iter_deref, load_value. simpl.
    by rewrite Hn.
  - intros k c Hc.
    destruct (chain_lookup _ _ _ _ _ _ Hch Hc) as (x & nxt & Hn & _ & Hrest).
    apply chain_head in Hrest. rewrite head_lookup, lookup_drop in Hrest.
    rewrite Nat.add_0_r in Hrest. subst nxt.
    unfold iter_post_incr, bind, iter_incr, bind, load_next, ret. simpl.
    by rewrite Hn.
Qed.

(** X7. Nothing guards a missing node: dereferencing or incrementing
    [end()], stepping past [end()], [PopFront()] on an empty list and
    [EraseAfter(pos)] with [pos] on the last node (or on the sentinel of an
    empty list) all dereference [nullptr]. *)
Theorem missing_node_is_undefined s this cells xs :
  addr_ok s → is_list s this cells xs →
  iter_deref (end_ this) s = Undefined ∧
  iter_incr (end_ this) s = Undefined ∧
  (do b <- begin this; advance (S (length xs)) b) s = Undefined ∧
  (xs = [] → PopFront this s = Undefined) ∧
  (∀ pos i, position this cells pos i → cells !! i = None →
            EraseAfter this pos s = Undefined).
Proof.
  intros Hok Hl.
  pose proof (addr_ok_null s Hok) as Hnull.
  destruct (is_list_sentinel _ _ _ _ Hl) as (v0 & Hhd & Hch).
  pose proof (is_list_length _ _ _ _ Hl) as Hlen.
  assert (Hderef : iter_deref (end_ this) s = Undefined) by (by exec).
  assert (Hincr : iter_incr (end_ this) s = Undefined) by (by exec).
  split; [done|split; [done|split; [|split]]].
  - rewrite <- Hlen. unfold bind. rewrite (begin_spec s this cells xs Hl).
    by apply (advance_past_end s _ cells xs).
  - intros ->. destruct cells; [|done]. simpl in Hhd. by exec.
  - intros [p] i Hpos Hlast. unfold position in Hpos. simpl in Hpos.
    pose proof Hl as ([v1 Hfull] & _).
    destruct (chain_lookup _ _ _ _ _ _ Hfull Hpos) as (x & nxt & Hp & _ & Hrest).
    apply chain_head in Hrest. rewrite head_lookup, lookup_drop in Hrest.
    rewrite Nat.add_0_r in Hrest. simpl in Hrest. rewrite Hlast in Hrest.
    simpl in Hrest. subst nxt. by exec.
Qed.

(** X8. Writing through a mutable iterator, [*it = value], replaces exactly
    the element [it] is on: the other elements, the chain and the size stay
    as they are, and [*it] then reads [value]. *)
Theorem iter_assign_replaces_one s this cells xs it k v :
  addr_ok s → is_list s this cells xs → cells !! k = Some (node_ it) →
  ∃ s', iter_assign it v s = Ok tt s' ∧
        is_list s' this cells (<[k := v]> xs) ∧
        iter_deref it s' = Ok v s' ∧
        (∀ a, a ≠ node_ it → nodes s' !! a = nodes s !! a) ∧
        size_ s' = size_ s.
Proof.
  intros Hok Hl Hk. destruct it as [c]. simpl in Hk.
  pose proof Hl as ([v0 Hfull] & Hnd & Hsz).
  assert (Hk' : (this :: cells) !! S k = Some c) by done.
  destruct (chain_lookup _ _ _ _ _ _ Hfull Hk') as (x & nxt & Hc & _).
  eexists. split.
  { unfold iter_assign, store_value. simpl. rewrite Hc. reflexivity. }
  split; [|split; [|split; [|done]]].
  - split; [|split; [done|done]]. exists v0.
    exact (chain_set_value _ _ _ _ _ _ _ _ v Hfull Hnd Hk' Hc).
  - unfold iter_deref, load_value. simpl. by rewrite lookup_insert_eq.
  - intros a Ha. simpl in *. by rewrite lookup_insert_ne.
Qed.

(** X9. Insertion followed by removal at the same place undoes itself:
    [InsertAfter(pos, value)] then [EraseAfter(pos)] puts the store back
    exactly as it was and returns the node that followed [pos] all along,
    and so does [PushFront(value)] then [PopFront()]. *)
Theorem insert_then_erase_restores s this cells xs pos i a v :
  addr_ok s → is_list s this cells xs → position this cells pos i →
  operator_new s = Some a →
  (run InsertAfter this pos v; EraseAfter this pos) s
  = Ok (Iterator (default nullptr (cells !! i))) s ∧
  (run PushFront this v; PopFront this) s = Ok tt s.
Proof.
  intros Hok Hl Hpos Hnew.
  assert (Hgen : ∀ p j, (this :: cells) !! j = Some p →
            (run InsertAfter this (Iterator p) v;
             EraseAfter this (Iterator p)) s
            = Ok (Iterator (default nullptr (cells !! j))) s).
  { intros p j Hj.
    pose proof Hl as ([v0 Hch] & Hnd & Hsz).
    destruct (chain_lookup _ _ _ _ _ _ Hch Hj) as (x & nxt & Hp & _ & Hrest).
    apply chain_head in Hrest. rewrite head_lookup, lookup_drop in Hrest.
    rewrite Nat.add_0_r in Hrest. simpl in Hrest. subst nxt.
    destruct (operator_new_fresh _ _ Hnew) as (Hfree & Hnn & Hrange).
    assert (Hpa : a ≠ p) by (intros ->; congruence).
    pose proof (is_list_size_bound _ _ _ _ Hok Hl) as Hbound.
    exec. rewrite (size_t_small (_ + 1)) by lia.
    replace (Z.of_nat (length cells) + 1 - 1) with (Z.of_nat (length cells))
      by lia.
    rewrite size_t_small by lia. f_equal.
    apply Store_eq; simpl; intros b.
    - destruct (decide (b = a)) as [->|?];
        [by rewrite lookup_delete_eq, Hfree|].
      destruct (decide (b = p)) as [->|?]; by exec.
    - destruct (decide (b = this)) as [->|?]; by exec. }
  split.
  - destruct pos as [p]. by apply Hgen.
  - specialize (Hgen this 0%nat eq_refl).
    pose proof (is_list_length _ _ _ _ Hl) as Hlen.
    unfold bind in *. rewrite PushFront_as_InsertAfter. unfold bind.
    change (InsertAfter this (before_begin this) v s)
      with (InsertAfter this (Iterator this) v s).
    destruct (InsertAfter this (Iterator this) v s) as [it s1| | |] eqn:E;
      try done.
    unfold ret.
    destruct (InsertAfter_spec s this cells xs (Iterator this) 0 a v Hok Hl
                eq_refl Hnew) as (s1' & E' & Hl1 & Hok1 & _).
    rewrite E in E'. simplify_eq. rewrite take_0, drop_0 in Hl1. simpl in Hl1.
    rewrite (PopFront_as_EraseAfter s1' this (a :: cells) (v :: xs))
      by done.
    unfold bind. change (before_begin this) with (Iterator this).
    by rewrite Hgen.
Qed.

Lemma traverse_chain s this cells xs v0 fuel :
  addr_ok s → chain (nodes s) this (this :: cells) (v0 :: xs) →
  (length cells ≤ fuel)%nat →
  traverse fuel this s = Ok xs s.
Proof.
  intros Hok Hch Hfuel.
  inversion Hch as [|a x nxt cs ys Ha Hrest]; simplify_eq.
  unfold traverse, begin, bind, load_next, ret, head_. rewrite Ha. simpl.
  by apply (copy_range_chain s cells).
Qed.

Lemma mutation_length s s' this c cells xs :
  addr_ok s → is_list s this cells xs →
  mutates this c → c ≠ CClear this → call_pre s c →
  run_call c s = Ok tt s' →
  ∃ cells' xs', is_list s' this cells' xs' ∧ addr_ok s' ∧
                Z.of_nat (length xs') = Z.of_nat (length xs) + size_change c.
Proof.
  intros Hok Hl Hmut Hnc Hpre Hrun.
  pose proof (is_list_length _ _ _ _ Hl) as Hlen.
  destruct c as [| | | | |t pos v|t pos|t v|t|t|]; simpl in Hmut;
    try done; subst t; cbn [run_call call_pre size_change] in *.
  - destruct Hpre as (Hthis & Href).
    destruct (references_position _ _ _ _ _ Hok Hl Href) as [i Hpos].
    unfold bind in Hrun. destruct (operator_new s) as [a|] eqn:Hnew.
    + destruct (InsertAfter_spec s this cells xs pos i a v Hok Hl Hpos Hnew)
        as (s1 & Hrun1 & Hl1 & Hok1 & _). rewrite Hrun1 in Hrun.
      unfold ret in Hrun. simplify_eq. eexists _, _.
      split; [done|split; [done|]].
      rewrite length_app, length_take. simpl. rewrite length_drop. lia.
    + by rewrite (InsertAfter_throws s this cells xs pos i v) in Hrun.
  - destruct Hpre as (Hthis & Href & Hnext).
    destruct (references_position _ _ _ _ _ Hok Hl Href) as [i Hpos].
    destruct (has_next_lookup _ _ _ _ _ _ Hl Hpos Hnext) as [d Hd].
    destruct (EraseAfter_spec s this cells xs pos i d Hok Hl Hpos Hd)
      as (s1 & Hrun1 & Hl1 & Hok1 & _).
    unfold bind in Hrun. rewrite Hrun1 in Hrun. unfold ret in Hrun.
    simplify_eq. eexists _, _. split; [done|split; [done|]].
    apply lookup_lt_Some in Hd.
    rewrite length_delete; [lia|]. apply lookup_lt_is_Some. lia.
  - destruct (operator_new s) as [a|] eqn:Hnew.
    + destruct (PushFront_spec s this cells xs a v Hok Hl Hnew)
        as (s1 & Hrun1 & Hl1 & Hok1 & _). rewrite Hrun1 in Hrun.
      simplify_eq. eexists _, _. split; [done|split; [done|]]. simpl. lia.
    + by rewrite (PushFront_throws s this cells xs v) in Hrun.
  - destruct Hpre as (Hthis & Hnonempty).
    destruct cells as [|d cells].
    { destruct Hl as (_ & _ & Hsz). unfold IsEmpty, bind, load_size in *.
      rewrite Hsz in Hnonempty. by simplify_eq. }
    destruct xs as [|x xs]; [done|].
    destruct (PopFront_spec s this d cells x xs Hok Hl)
      as (s1 & Hrun1 & Hl1 & Hok1 & _).
    rewrite Hrun1 in Hrun. simplify_eq. eexists _, _.
    split; [done|split; [done|]]. simpl. lia.
  - by destruct Hnc.
Qed.

Lemma list_ltb_asym xs : ∀ ys,
  (∀ x y, Type_lt x y = true → Type_lt y x = false) →
  list_ltb xs ys = true → list_ltb ys xs = false.
Proof.
  induction xs as [|x xs IH]; intros [|y ys] Hasym; simpl; try done.
  destruct (Type_lt x y) eqn:Hxy.
  - intros _. by rewrite (Hasym x y Hxy).
  - destruct (Type_lt y x) eqn:Hyx; [done|]. by apply IH.
Qed.

Lemma list_eqb_sym xs : ∀ ys,
  (∀ x y, Type_eq x y = Type_eq y x) → list_eqb xs ys = list_eqb ys xs.
Proof.
  induction xs as [|x xs IH]; intros [|y ys] Hsym; simpl; try done.
  by rewrite (Hsym x y), (IH ys).
Qed.

(** X10. In every reachable state two different lists share no node,
    sentinels included, and inserting into, erasing from or clearing one of
    them leaves the other exactly as it was. *)
Theorem lists_never_share_nodes s A B cA xA cB xB :
  reachable s → A ≠ B → is_list s A cA xA → is_list s B cB xB →
  (A :: cA) ## (B :: cB) ∧
  ∀ s', mutated A s s' → is_list s' B cB xB.
Proof.
  intros Hinv%reachable_store_inv Hne HA HB.
  pose proof (store_inv_disjoint _ _ _ _ _ _ _ Hinv Hne HA HB) as Hdisj.
  split; [done|]. intros s' Hmut.
  eapply (mutated_frame A s s' Hmut cA xA B cB xB); try done.
  - by apply store_inv_addr_ok.
  - by apply list_disjoint_sym.
Qed.

(** X11. Copy assignment [this = rhs] between two different lists either
    returns, with the old nodes of [this] and the temporary all freed and
    [rhs] untouched, or leaves by [std::bad_alloc] with both [this] and
    [rhs] exactly as they were. *)
Theorem assignment_frees_or_rolls_back s fuel temp this rhs cT xT cR xR :
  addr_ok s → is_list s this cT xT → is_list s rhs cR xR →
  (this :: cT) ## (rhs :: cR) → fresh_object s temp →
  (length cR ≤ fuel)%nat →
  match operator_assign fuel temp this rhs s with
  | Ok _ s' =>
      (∀ a, a ∈ cT → nodes s' !! a = None) ∧
      fresh_object s' temp ∧
      (∀ a, a ∈ rhs :: cR → nodes s' !! a = nodes s !! a) ∧
      ∃ cells', is_list s' this cells' xR
  | Throw s1 =>
      operator_new s1 = None ∧ is_list s1 this cT xT ∧ is_list s1 rhs cR xR
  | Undefined | OutOfFuel => False
  end.
Proof.
  intros Hok HlT HlR Hdisj Hfresh Hfuel. unfold operator_assign.
  assert (Hne : this ≠ rhs) by (intros ->; apply (Hdisj rhs); left).
  destruct (N.eqb_spec this rhs) as [?|_]; [done|]. simpl.
  unfold bind at 1.
  pose proof (copy_spec s temp rhs cR xR fuel Hok Hfresh HlR Hfuel) as Hcopy.
  destruct (SingleLinkedList_copy fuel temp rhs s) as [[] s1|s1| |];
    try done.
  2:{ destruct Hcopy as (Hnone & c1 & x1 & Hcon). split; [done|].
      split; by eapply constructs_frame. }
  destruct Hcopy as (c' & Hcon).
  pose proof Hcon as (Hltemp & Hok1 & Hkept1 & _).
  destruct (constructs_frame _ _ _ _ _ _ _ _ Hcon HlT) as [HlT1 HdT].
  destruct (constructs_frame _ _ _ _ _ _ _ _ Hcon HlR) as [HlR1 HdR].
  destruct (swap_spec s1 this temp cT xT c' xR Hok1 HlT1 Hltemp HdT)
    as (s2 & Hswap & HlT2 & Hltemp2 & Hok2 & Hn2 & Hsz2).
  unfold bind at 1. rewrite Hswap.
  pose proof HlT as (_ & [HT_cT _]%NoDup_cons & _).
  pose proof Hltemp as (_ & [Htemp_c' _]%NoDup_cons & _).
  assert (Htt : this ≠ temp) by (intros ->; apply (HdT temp); left).
  assert (Hrt : rhs ≠ temp) by (intros ->; apply (HdR temp); left).
  destruct (dtor_exact s2 temp cT xT Hok2 Hltemp2)
    as (s3 & Hdtor & Hok3 & Hfreed & Hkept3 & Hnosz & Hsz3).
  unfold bind. rewrite Hdtor. unfold ret.
  destruct Hfresh as (_ & _ & Hnn & Hrange).
  split; [|split; [|split]].
  - intros a Ha. apply Hfreed. by right.
  - split; [apply Hfreed; left|done].
  - intros a Ha.
    assert (Hat : a ≠ temp) by (intros ->; apply (HdR temp); [done|left]).
    assert (Hath : a ≠ this) by (intros ->; apply (Hdisj this); [left|done]).
    rewrite Hkept3.
    + rewrite Hn2 by done. apply Hkept1. by eapply is_list_live.
    + intros [?|Hin]%elem_of_cons; [done|]. apply (Hdisj a); [by right|done].
  - exists c'. eapply is_list_frame; [exact HlT2| |by apply Hsz3].
    intros a Ha. apply Hkept3.
    intros [->|Hin]%elem_of_cons.
    + apply elem_of_cons in Ha as [?|Ha]; done.
    + apply elem_of_cons in Ha as [->|Ha]; [done|].
      apply (HdT a); by right.
Qed.

(** X12. [InsertAfter] trusts its position: given a position in another
    list [B], [A.InsertAfter(pos, value)] links the new node into [B] but
    counts it in [A].  Afterwards [A] still holds its old elements while
    [A.GetSize()] is one too many, and [B] holds one element more than
    [B.GetSize()] says. *)
Theorem InsertAfter_trusts_the_position s A B cA xA cB xB pos i a v :
  addr_ok s → is_list s A cA xA → is_list s B cB xB →
  (A :: cA) ## (B :: cB) → position B cB pos i →
  operator_new s = Some a →
  ∃ s', InsertAfter A pos v s = Ok (Iterator a) s' ∧
        GetSize A s' = Ok (Z.of_nat (length xA) + 1) s' ∧
        (∀ fuel, (length xA ≤ fuel)%nat → traverse fuel A s' = Ok xA s') ∧
        GetSize B s' = Ok (Z.of_nat (length xB)) s' ∧
        (∀ fuel, (length xB + 1 ≤ fuel)%nat →
                 traverse fuel B s' = Ok (take i xB ++ v :: drop i xB) s').
Proof.
  intros Hok HA HB Hdisj Hpos Hnew. destruct pos as [p].
  unfold position in Hpos. simpl in Hpos.
  pose proof HA as ([vA HchA] & HndA & HszA).
  pose proof HB as ([vB HchB] & HndB & HszB).
  pose proof (is_list_length _ _ _ _ HA) as HlenA.
  pose proof (is_list_length _ _ _ _ HB) as HlenB.
  destruct (chain_lookup _ _ _ _ _ _ HchB Hpos) as (x & nxt & Hp & _ & _).
  destruct (operator_new_fresh _ _ Hnew) as (Hfree & Hnn & Hrange).
  assert (Hpa : a ≠ p) by (intros ->; congruence).
  assert (HpB : p ∈ B :: cB) by (eapply list_elem_of_lookup_2; eauto).
  assert (HAB : A ≠ B) by (intros ->; apply (Hdisj B); left).
  pose proof (is_list_size_bound _ _ _ _ Hok HA) as Hbound.
  eexists. split.
  { unfold InsertAfter, incr_size, bind, load_next, new_Node, store_next,
      load_size, store_size, ret. simpl.
    rewrite Hp, Hnew. simpl. rewrite lookup_insert_ne, Hp by done. simpl.
    rewrite HszA. simpl. rewrite HszA. reflexivity. }
  set (s' := mkStore _ _).
  assert (Hok' : addr_ok s').
  { intros b. simpl. intros Hb.
    destruct (decide (b = p)) as [->|?]; [apply Hok; eauto|].
    rewrite lookup_insert_ne in Hb by done.
    destruct (decide (b = a)) as [->|?]; [done|].
    rewrite lookup_insert_ne in Hb by done. by apply Hok. }
  split; [|split; [|split]].
  - unfold GetSize, load_size. simpl. rewrite lookup_insert_eq.
    rewrite size_t_small by lia. by rewrite HlenA.
  - intros fuel Hfuel. apply (traverse_chain s' A cA xA vA); [done| |lia].
    eapply chain_frame; [exact HchA|]. intros c Hc. simpl.
    assert (Hlive : is_Some (nodes s !! c)).
    { eapply is_list_live; [exact HA|exact Hc]. }
    rewrite !lookup_insert_ne; [done| |].
    + intros <-. destruct Hlive. congruence.
    + intros <-. by apply (Hdisj p).
  - unfold GetSize, load_size. simpl.
    rewrite lookup_insert_ne by done. by rewrite HszB, HlenB.
  - intros fuel Hfuel.
    pose proof (chain_insert _ _ _ _ _ _ _ _ _ v HchB HndB Hpos Hp Hfree)
      as Hins. simpl in Hins.
    apply (traverse_chain s' B (take i cB ++ a :: drop i cB)
             (take i xB ++ v :: drop i xB) vB); [done|exact Hins|].
    rewrite length_app, length_take. simpl. rewrite length_drop. lia.
Qed.

(** X13. After any sequence of [PushFront], [PopFront], [InsertAfter] and
    [EraseAfter] calls on a list, each made within its contract and
    returning, [GetSize()] is the size before plus the insertions less the
    removals. *)
Theorem GetSize_counts_net_insertions s s' this cs :
  performed this cs s s' →
  ∀ cells xs, addr_ok s → is_list s this cells xs →
  GetSize this s' = Ok (Z.of_nat (length xs) + net_change cs) s'.
Proof.
  induction 1 as [s|s c cs s1 s2 Hmut Hnc Hpre Hrun _ IH];
    intros cells xs Hok Hl.
  - simpl. rewrite Z.add_0_r. by eapply GetSize_spec.
  - destruct (mutation_length s s1 this c cells xs Hok Hl Hmut Hnc Hpre Hrun)
      as (cells1 & xs1 & Hl1 & Hok1 & Hlen).
    rewrite (IH cells1 xs1 Hok1 Hl1). f_equal.
    change (net_change (c :: cs)) with (size_change c + net_change cs). lia.
Qed.

(** X14. When the element's [<] is asymmetric the ordering of lists is
    strict and total: [A < B] and [A > B] never both hold, one of [A <= B]
    and [A >= B] always holds, and a list is never less than itself nor
    than a list with the same elements. *)
Theorem ordering_is_strict s fuel lhs rhs cL xL cR xR :
  (∀ x y, Type_lt x y = true → Type_lt y x = false) →
  addr_ok s → is_list s lhs cL xL → is_list s rhs cR xR →
  (length cL ≤ fuel)%nat → (length cR ≤ fuel)%nat →
  ∃ lt gt le ge,
    operator_lt fuel lhs rhs s = Ok lt s ∧
    operator_gt fuel lhs rhs s = Ok gt s ∧
    operator_le fuel lhs rhs s = Ok le s ∧
    operator_ge fuel lhs rhs s = Ok ge s ∧
    lt && gt = false ∧
    le || ge = true ∧
    (xL = xR → lt = false ∧ gt = false ∧ le = true ∧ ge = true).
Proof.
  intros Hasym Hok HL HR HfL HfR.
  pose proof (operator_lt_spec s fuel lhs rhs cL xL cR xR Hok HL HR HfL) as Hlt.
  pose proof (operator_lt_spec s fuel rhs lhs cR xR cL xL Hok HR HL HfR) as Hgt.
  exists (list_ltb xL xR), (list_ltb xR xL),
         (negb (list_ltb xR xL)), (negb (list_ltb xL xR)).
  unfold operator_gt, operator_le, operator_ge, bind. rewrite Hlt, Hgt.
  split; [done|split; [done|split; [done|split; [done|]]]].
  assert (Hboth : list_ltb xL xR && list_ltb xR xL = false).
  { destruct (list_ltb xL xR) eqn:E; [|done].
    by rewrite (list_ltb_asym xL xR Hasym E). }
  split; [done|split].
  - destruct (list_ltb xL xR), (list_ltb xR xL); done.
  - intros <-. destruct (list_ltb xL xL) eqn:E; [|done].
    by rewrite (list_ltb_asym xL xL Hasym E) in E.
Qed.

(** X15. When the element's [==] is symmetric so is the lists': [A == B]
    and [B == A] give the same answer; and lists that compare equal have
    the same [GetSize()]. *)
Theorem operator_eq_symmetric s fuel lhs rhs cL xL cR xR :
  (∀ x y, Type_eq x y = Type_eq y x) →
  addr_ok s → is_list s lhs cL xL → is_list s rhs cR xR →
  (length cL ≤ fuel)%nat → (length cR ≤ fuel)%nat →
  operator_eq fuel lhs rhs s = operator_eq fuel rhs lhs s ∧
  (operator_eq fuel lhs rhs s = Ok true s → GetSize lhs s = GetSize rhs s).
Proof.
  intros Hsym Hok HL HR HfL HfR.
  rewrite (operator_eq_spec s fuel lhs rhs cL xL cR xR) by done.
  rewrite (operator_eq_spec s fuel rhs lhs cR xR cL xL) by done.
  split; [by rewrite (list_eqb_sym xL xR)|].
  intros [= Heq]. apply list_eqb_same_elements in Heq as [Hlen _].
  by rewrite (GetSize_spec _ _ _ _ HL), (GetSize_spec _ _ _ _ HR), Hlen.
Qed.

(** X16. The default constructor, and the initializer-list constructor
    given no values, build the same empty list: they return without
    allocating, [IsEmpty()] is [true], a walk yields nothing, and no node
    that was in use is touched. *)
Theorem empty_construction s this :
  addr_ok s → fresh_object s this →
  ∃ s', SingleLinkedList_default this s = Ok tt s' ∧
        SingleLinkedList_init this [] s = Ok tt s' ∧
        is_list s' this [] [] ∧
        IsEmpty this s' = Ok true s' ∧
        (∀ fuel, traverse fuel this s' = Ok [] s') ∧
        (∀ a, a ≠ this → nodes s' !! a = nodes s !! a).
Proof.
  intros Hok Hfresh.
  destruct (default_spec s this Hok Hfresh) as (s' & Hrun & Hl & Hok' & Hn & _).
  exists s'. split; [done|split; [|split; [done|split; [|split; [|done]]]]].
  - unfold SingleLinkedList_init, bind. by rewrite Hrun.
  - pose proof Hl as (_ & _ & Hsz). simpl in Hsz.
    unfold IsEmpty, bind, load_size. by rewrite Hsz.
  - intros fuel. apply (traverse_spec s' this [] []); [done..|simpl; lia].
Qed.

(** X17. The initializer-list and copy constructors write only storage that
    was not in use: whether they return or leave by [std::bad_alloc], every
    node that was live is unchanged, so is the size of every other list,
    and in particular the list copied from is exactly as it was. *)
Theorem constructors_touch_only_new_storage s fuel this other cells xs values :
  addr_ok s → fresh_object s this → is_list s other cells xs →
  (length cells ≤ fuel)%nat →
  match SingleLinkedList_init this values s with
  | Ok _ s' | Throw s' =>
      (∀ a, is_Some (nodes s !! a) → nodes s' !! a = nodes s !! a) ∧
      (∀ t, t ≠ this → size_ s' !! t = size_ s !! t) ∧
      is_list s' other cells xs
  | Undefined | OutOfFuel => False
  end ∧
  match SingleLinkedList_copy fuel this other s with
  | Ok _ s' | Throw s' =>
      (∀ a, is_Some (nodes s !! a) → nodes s' !! a = nodes s !! a) ∧
      (∀ t, t ≠ this → size_ s' !! t = size_ s !! t) ∧
      is_list s' other cells xs
  | Undefined | OutOfFuel => False
  end.
Proof.
  intros Hok Hfresh Hl Hfuel.
  assert (Hcon : ∀ c' x' s', constructs this c' x' s s' →
            (∀ a, is_Some (nodes s !! a) → nodes s' !! a = nodes s !! a) ∧
            (∀ t, t ≠ this → size_ s' !! t = size_ s !! t) ∧
            is_list s' other cells xs).
  { intros c' x' s' Hc. pose proof Hc as (_ & _ & Hkept & _ & Hsz).
    split; [done|split; [done|]]. by eapply constructs_frame. }
  split.
  - pose proof (init_spec s this values Hok Hfresh) as Hspec.
    destruct (SingleLinkedList_init this values s) as [[] s'|s'| |];
      try done.
    + destruct Hspec as (c' & Hc). by eapply Hcon.
    + destruct Hspec as (_ & c' & x' & Hc). by eapply Hcon.
  - pose proof (copy_spec s this other cells xs fuel Hok Hfresh Hl Hfuel)
      as Hspec.
    destruct (SingleLinkedList_copy fuel this other s) as [[] s'|s'| |];
      try done.
    + destruct Hspec as (c' & Hc). by eapply Hcon.
    + destruct Hspec as (_ & c' & x' & Hc). by eapply Hcon.
Qed.

Lemma InsertAfter_store s this cells xs p i a v :
  addr_ok s → is_list s this cells xs → (this :: cells) !! i = Some p →
  operator_new s = Some a →
  ∃ x nxt,
    nodes s !! p = Some (mkNode x nxt) ∧ a ≠ p ∧ nodes s !! a = None ∧
    InsertAfter this (Iterator p) v s
    = Ok (Iterator a)
         (mkStore (<[p := mkNode x a]> (<[a := mkNode v nxt]> (nodes s)))
                  (<[this := Z.of_nat (length cells) + 1]> (size_ s))).
Proof.
  intros Hok Hl Hpos Hnew.
  pose proof Hl as ([v0 Hch] & Hnd & Hsz).
  destruct (chain_lookup _ _ _ _ _ _ Hch Hpos) as (x & nxt & Hp & _ & _).
  destruct (operator_new_fresh _ _ Hnew) as (Hfree & Hnn & Hrange).
  assert (Hpa : a ≠ p) by (intros ->; congruence).
  pose proof (is_list_size_bound _ _ _ _ Hok Hl) as Hbound.
  exists x, nxt. split; [done|split; [done|split; [done|]]].
  exec. by rewrite size_t_small by lia.
Qed.

Lemma EraseAfter_frees s this cells xs pos i d :
  addr_ok s → is_list s this cells xs → position this cells pos i →
  cells !! i = Some d →
  ∃ it s', EraseAfter this pos s = Ok it s' ∧ nodes s' !! d = None.
Proof.
  intros Hok Hl Hpos Hd. destruct pos as [p]. unfold position in Hpos.
  simpl in Hpos.
  pose proof Hl as ([v0 Hch] & Hnd & Hsz).
  assert (Hd' : (this :: cells) !! S i = Some d) by done.
  destruct (chain_lookup _ _ _ _ _ _ Hch Hpos) as (x & nxt & Hp & _ & Hrest).
  destruct (chain_lookup _ _ _ _ _ _ Hch Hd') as (y & after & Hdn & _ & _).
  assert (nxt = d) as ->.
  { apply chain_head in Hrest. rewrite head_lookup, lookup_drop in Hrest.
    rewrite Nat.add_0_r, Hd' in Hrest. done. }
  assert (Hpd : p ≠ d).
  { intros ->. pose proof (NoDup_lookup _ _ _ _ Hnd Hpos Hd'). lia. }
  assert (Hdnull : d ≠ nullptr) by (apply Hok; eauto).
  eexists _, _. split; [exec; reflexivity|]. simpl.
  by rewrite lookup_delete_eq.
Qed.

(** X18. [EraseAfter(pos)] invalidates the erased node and nothing else:
    an iterator on the erased node dangles (dereferencing or incrementing
    it is undefined), while an iterator on any other node of the list still
    reads the same element. *)
Theorem erase_invalidates_only_the_erased s this cells xs pos i d :
  addr_ok s → is_list s this cells xs → position this cells pos i →
  cells !! i = Some d →
  ∃ it s',
    EraseAfter this pos s = Ok it s' ∧
    iter_deref (Iterator d) s' = Undefined ∧
    iter_incr (Iterator d) s' = Undefined ∧
    (∀ k c x, cells !! k = Some c → c ≠ d → xs !! k = Some x →
              iter_deref (Iterator c) s' = Ok x s').
Proof.
  intros Hok Hl Hpos Hd.
  destruct (EraseAfter_frees s this cells xs pos i d Hok Hl Hpos Hd)
    as (it & s' & Hrun & Hgone).
  destruct (EraseAfter_spec s this cells xs pos i d Hok Hl Hpos Hd)
    as (s1 & Hrun1 & Hl' & _).
  rewrite Hrun in Hrun1. simplify_eq.
  exists (Iterator (default nullptr (cells !! S i))), s1.
  split; [done|split; [|split]].
  - unfold iter_deref, load_value. simpl. by rewrite Hgone.
  - unfold iter_incr, bind, load_next. simpl. by rewrite Hgone.
  - intros k c x Hc Hcd Hx.
    destruct (is_list_sentinel _ _ _ _ Hl') as (v0 & _ & Hch').
    assert (Hki : k ≠ i) by (intros ->; congruence).
    assert (∃ k', delete i cells !! k' = Some c ∧ delete i xs !! k' = Some x)
      as (k' & Hc' & Hx').
    { destruct (decide (k < i)%nat).
      - exists k. by rewrite !list_lookup_delete_lt.
      - exists (pred k). rewrite !list_lookup_delete_ge by lia.
        by replace (S (pred k)) with k by lia. }
    destruct (chain_lookup _ _ _ _ _ _ Hch' Hc') as (x' & nxt & Hn & Hx'' & _).
    rewrite Hx' in Hx''. simplify_eq.
    unfold iter_deref, load_value. simpl. by rewrite Hn.
Qed.

(** X19. [InsertAfter] invalidates nothing: after it returns, an iterator
    on any node the list had still reads the same element, and the new
    node reads the inserted value. *)
Theorem insert_keeps_iterators_valid s this cells xs pos i a v :
  addr_ok s → is_list s this cells xs → position this cells pos i →
  operator_new s = Some a →
  ∃ s', InsertAfter this pos v s = Ok (Iterator a) s' ∧
        iter_deref (Iterator a) s' = Ok v s' ∧
        (∀ k c x, cells !! k = Some c → xs !! k = Some x →
                  iter_deref (Iterator c) s' = Ok x s').
Proof.
  intros Hok Hl Hpos Hnew. destruct pos as [p]. unfold position in Hpos.
  simpl in Hpos.
  destruct (InsertAfter_store s this cells xs p i a v Hok Hl Hpos Hnew)
    as (xp & nxt & Hp & Hpa & Hfree & Hrun).
  eexists. split; [exact Hrun|]. split.
  - unfold iter_deref, load_value. simpl.
    by rewrite lookup_insert_ne, lookup_insert_eq.
  - intros k c x Hc Hx.
    destruct (is_list_sentinel _ _ _ _ Hl) as (v0 & _ & Hch).
    destruct (chain_lookup _ _ _ _ _ _ Hch Hc) as (x' & nc & Hn & Hx' & _).
    rewrite Hx in Hx'. simplify_eq.
    unfold iter_deref, load_value. simpl.
    destruct (decide (c = p)) as [->|Hcp].
    + rewrite lookup_insert_eq. simpl. congruence.
    + rewrite !lookup_insert_ne, Hn; [done|congruence|done].
Qed.

Lemma disjoint_decide (l k : list N) :
  bool_decide (Forall (λ a, a ∉ k) l) = true → l ## k.
Proof.
  intros H%bool_decide_eq_true_1 a Ha Hk.
  rewrite Forall_forall in H. by apply (H a).
Qed.

End SingleLinkedList.

Arguments Ok {T A} a s.
Arguments Throw {T A} s.
Arguments Undefined {T A}.
Arguments OutOfFuel {T A}.

Notation "'do' x <- m ; k" := (bind m (λ x, k))
  (at level 10, x name, m at level 100, k at level 200, only parsing).
Notation "'run' m ; k" := (bind m (λ _, k))
  (at level 10, m at level 100, k at level 200, only parsing).

(** * Lists of integers over the bump allocator *)

(** [SingleLinkedList<int> a{1, 2, 3}] at address 1: the nodes are at 4, 3
    and 2, front to back. *)
Abbreviation list_123 :=
  (store_after (SingleLinkedList_init 0 bump_new 1%N [1; 2; 3])
               (@empty_store Z)).

(** ... and [SingleLinkedList<int> b{1, 2}] at address 100, with its nodes
    at 102 and 101. *)
Abbreviation two_lists :=
  (store_after (SingleLinkedList_init 0 bump_new 100%N [1; 2]) list_123).

(** [SingleLinkedList<double> c{NaN}] at address 1, its node at 2, and a
    default-constructed [SingleLinkedList<double> d] at address 100. *)
Abbreviation list_nan :=
  (store_after (SingleLinkedList_default PrimFloat.zero 100%N)
     (store_after
        (SingleLinkedList_init PrimFloat.zero bump_new 1%N [PrimFloat.nan])
        (@empty_store PrimFloat.float))).

Ltac concrete_list v0 :=
  split; [exists v0; repeat (econstructor; [reflexivity|]); constructor
         |split; [by apply NoDup_decide|reflexivity]].

Lemma addr_ok_list_123 : addr_ok list_123.
Proof. by apply addr_ok_decide. Qed.

Lemma is_list_list_123 : is_list list_123 1%N [4; 3; 2]%N [1; 2; 3].
Proof. concrete_list 0. Qed.

Lemma addr_ok_two_lists : addr_ok two_lists.
Proof. by apply addr_ok_decide. Qed.

Lemma is_list_two_lists_a : is_list two_lists 1%N [4; 3; 2]%N [1; 2; 3].
Proof. concrete_list 0. Qed.

Lemma is_list_two_lists_b : is_list two_lists 100%N [102; 101]%N [1; 2].
Proof. concrete_list 0. Qed.

Lemma reachable_list_123 : reachable 0 bump_new list_123.
Proof.
  apply (reachable_return 0 bump_new empty_store (CInit 1%N [1; 2; 3])).
  - apply reachable_empty.
  - by repeat split.
  - reflexivity.
Qed.

(** C9. The ordering operators compare the element sequences
    lexicographically with the element's [<]: the first position where one
    element is less than the other decides, and a strict prefix is less
    than the longer sequence; [>] is [<] with the sides exchanged, [<=] is
    "not [>]" and [>=] is "not [<]".  On lists of integers:
    [[1,2] < [1,2,3]], [[1,2,3] < [1,3]], [[] < [1]], and [[1,2] <= [1,2]]
    holds while [[1,2] < [1,2]] does not. *)
Theorem ordering_is_lexicographic :
  (∀ T (Type_lt : T → T → bool) (s : @Store T) fuel lhs rhs cL xL cR xR,
     addr_ok s → is_list s lhs cL xL → is_list s rhs cR xR →
     (length cL ≤ fuel)%nat → (length cR ≤ fuel)%nat →
     ∃ lt gt,
       operator_lt Type_lt fuel lhs rhs s = Ok lt s ∧
       operator_gt Type_lt fuel lhs rhs s = Ok gt s ∧
       operator_le Type_lt fuel lhs rhs s = Ok (negb gt) s ∧
       operator_ge Type_lt fuel lhs rhs s = Ok (negb lt) s ∧
       (lt = true ↔ lexicographic_less Type_lt xL xR) ∧
       (gt = true ↔ lexicographic_less Type_lt xR xL)) ∧
  ordering_of 0 Z.ltb bump_new [1; 2] [1; 2; 3] = Some (true, true, false, false) ∧
  ordering_of 0 Z.ltb bump_new [1; 2; 3] [1; 3] = Some (true, true, false, false) ∧
  ordering_of 0 Z.ltb bump_new [] [1] = Some (true, true, false, false) ∧
  ordering_of 0 Z.ltb bump_new [1; 2] [1; 2] = Some (false, true, false, true).
Proof.
  split; [|by vm_compute].
  intros T Type_lt s fuel lhs rhs cL xL cR xR. apply ordering_spec.
Qed.

(** * The claims at concrete inputs *)

Lemma construct_then_traverse_witness :
  addr_ok (@empty_store Z) ∧ fresh_object (@empty_store Z) 1%N ∧
  ∃ s', SingleLinkedList_init 0 bump_new 1%N [1; 2; 3] (@empty_store Z) = Ok tt s' ∧
        traverse 3 1%N s' = Ok [1; 2; 3] s'.
Proof.
  assert (Hok : addr_ok (@empty_store Z)) by (by apply addr_ok_decide).
  assert (Hfresh : fresh_object (@empty_store Z) 1%N) by (by repeat split).
  split; [done|split; [done|]].
  destruct (construct_then_traverse 0 bump_new bump_new_fresh
              (@empty_store Z) 1%N [1; 2; 3] Hok Hfresh) as [H _].
  destruct (SingleLinkedList_init 0 bump_new 1%N [1; 2; 3] (@empty_store Z))
    as [[] s'|s1| |] eqn:E; try discriminate E.
  exists s'. split; [reflexivity|]. apply H. simpl. lia.
Defined.

Lemma size_and_chain_invariant_witness :
  reachable 0 bump_new list_123 ∧ live list_123 1%N ∧
  ∃ cells xs, is_list list_123 1%N cells xs.
Proof.
  split; [apply reachable_list_123|]. split; [by eexists|].
  destruct (size_and_chain_invariant 0 bump_new bump_new_fresh list_123
              reachable_list_123) as [H _].
  apply H. by eexists.
Defined.

Lemma InsertAfter_inserts_after_pos_witness :
  addr_ok list_123 ∧ is_list list_123 1%N [4; 3; 2]%N [1; 2; 3] ∧
  position 1%N [4; 3; 2]%N (Iterator 4%N) 1 ∧
  ∃ it s', InsertAfter bump_new 1%N (Iterator 4%N) 10 list_123 = Ok it s' ∧
           is_list s' 1%N [4; node_ it; 3; 2]%N [1; 10; 2; 3] ∧
           GetSize 1%N s' = Ok 4 s'.
Proof.
  split; [apply addr_ok_list_123|]. split; [apply is_list_list_123|].
  split; [reflexivity|].
  pose proof (InsertAfter_inserts_after_pos bump_new bump_new_fresh
                list_123 1%N [4; 3; 2]%N [1; 2; 3] (Iterator 4%N) 1 10
                addr_ok_list_123 is_list_list_123 eq_refl) as H.
  destruct (InsertAfter bump_new 1%N (Iterator 4%N) 10 list_123)
    as [it s'|s1| |] eqn:E; try discriminate E.
  destruct H as (_ & Hl & _ & _ & Hsz & _). exists it, s'. done.
Defined.

Lemma EraseAfter_erases_after_pos_witness :
  addr_ok list_123 ∧ is_list list_123 1%N [4; 3; 2]%N [1; 2; 3] ∧
  position 1%N [4; 3; 2]%N (Iterator 4%N) 1 ∧
  has_next list_123 (Iterator 4%N) ∧
  ∃ s', EraseAfter 1%N (Iterator 4%N) list_123 = Ok (Iterator 2%N) s' ∧
        is_list s' 1%N [4; 2]%N [1; 3] ∧ GetSize 1%N s' = Ok 2 s'.
Proof.
  assert (Hnext : has_next list_123 (Iterator 4%N)).
  { eexists. split; [reflexivity|done]. }
  split; [apply addr_ok_list_123|]. split; [apply is_list_list_123|].
  split; [reflexivity|]. split; [done|].
  destruct (EraseAfter_erases_after_pos list_123 1%N [4; 3; 2]%N [1; 2; 3]
              (Iterator 4%N) 1 addr_ok_list_123 is_list_list_123 eq_refl
              Hnext) as (it & s' & Hrun & Hl & _ & Hsz & Hit).
  simpl in Hit. destruct Hit as [Hit _]. destruct it as [p]. simpl in Hit.
  subst p. exists s'. done.
Defined.

Lemma PushFront_PopFront_equivalent_witness :
  addr_ok list_123 ∧ is_list list_123 1%N [4; 3; 2]%N [1; 2; 3] ∧
  PushFront bump_new 1%N 0 list_123
  = (run InsertAfter bump_new 1%N (before_begin 1%N) 0; ret tt) list_123 ∧
  PopFront 1%N list_123
  = (run EraseAfter 1%N (before_begin 1%N); ret tt) list_123 ∧
  ∃ s', PopFront 1%N list_123 = Ok tt s' ∧ is_list s' 1%N [3; 2]%N [2; 3].
Proof.
  split; [apply addr_ok_list_123|]. split; [apply is_list_list_123|].
  destruct (@PushFront_PopFront_equivalent Z bump_new) as [Hpush Hpop].
  split; [apply Hpush|].
  apply (Hpop list_123 1%N [4; 3; 2]%N [1; 2; 3]
           addr_ok_list_123 is_list_list_123). done.
Defined.

Lemma copy_is_independent_witness :
  addr_ok list_123 ∧ is_list list_123 1%N [4; 3; 2]%N [1; 2; 3] ∧
  fresh_object list_123 200%N ∧
  ∃ s', SingleLinkedList_copy 0 bump_new 3 200%N 1%N list_123 = Ok tt s' ∧
        independent_copy 0 Z.eqb bump_new s' 3 1%N 200%N
                         [4; 3; 2]%N [1; 2; 3].
Proof.
  assert (Hfresh : fresh_object list_123 200%N) by (by repeat split).
  split; [apply addr_ok_list_123|]. split; [apply is_list_list_123|].
  split; [done|].
  destruct (copy_is_independent 0 Z.eqb bump_new bump_new_fresh list_123 3
              1%N [4; 3; 2]%N [1; 2; 3] addr_ok_list_123 is_list_list_123)
    as [Hcopy _]; [simpl; lia|].
  specialize (Hcopy 200%N Hfresh).
  assert (E : SingleLinkedList_copy 0 bump_new 3 200%N 1%N list_123
               = Ok tt (store_after
                          (SingleLinkedList_copy 0 bump_new 3 200%N 1%N)
                          list_123))
    by (vm_compute; reflexivity).
  rewrite E in Hcopy. eexists. split; [exact E|exact Hcopy].
Defined.

(** C6 as worded fails where the element's [==] is not reflexive.  The
    copy of [SingleLinkedList<double>{NaN}], made by the copy constructor
    at address 200 or by copy assignment to the empty list at address
    100, holds the same element and has the same size, and [L == L2] is
    [false]. *)
Lemma copy_of_nan_is_not_equal :
  addr_ok list_nan ∧ is_list list_nan 1%N [2]%N [PrimFloat.nan] ∧
  is_list list_nan 100%N [] [] ∧ fresh_object list_nan 200%N ∧
  (∃ s', SingleLinkedList_copy PrimFloat.zero bump_new 1 200%N 1%N list_nan
         = Ok tt s' ∧
         is_list s' 1%N [2]%N [PrimFloat.nan] ∧
         is_list s' 200%N [201]%N [PrimFloat.nan] ∧
         GetSize 1%N s' = Ok 1 s' ∧ GetSize 200%N s' = Ok 1 s' ∧
         operator_eq PrimFloat.eqb 1 1%N 200%N s' = Ok false s') ∧
  (∃ s', operator_assign PrimFloat.zero bump_new 1 200%N 100%N 1%N list_nan
         = Ok 100%N s' ∧
         is_list s' 1%N [2]%N [PrimFloat.nan] ∧
         is_list s' 100%N [201]%N [PrimFloat.nan] ∧
         GetSize 1%N s' = Ok 1 s' ∧ GetSize 100%N s' = Ok 1 s' ∧
         operator_eq PrimFloat.eqb 1 1%N 100%N s' = Ok false s').
Proof.
  split; [by apply addr_ok_decide|].
  split; [concrete_list PrimFloat.zero|].
  split; [concrete_list PrimFloat.zero|].
  split; [by repeat split|]. split.
  - exists (store_after
              (SingleLinkedList_copy PrimFloat.zero bump_new 1 200%N 1%N)
              list_nan).
    split; [vm_compute; reflexivity|].
    split; [concrete_list PrimFloat.zero|].
    split; [concrete_list PrimFloat.zero|].
    repeat split; vm_compute; reflexivity.
  - exists (store_after
              (operator_assign PrimFloat.zero bump_new 1 200%N 100%N 1%N)
              list_nan).
    split; [vm_compute; reflexivity|].
    split; [concrete_list PrimFloat.zero|].
    split; [concrete_list PrimFloat.zero|].
    repeat split; vm_compute; reflexivity.
Qed.

Lemma operator_eq_iff_witness :
  addr_ok two_lists ∧ is_list two_lists 1%N [4; 3; 2]%N [1; 2; 3] ∧
  is_list two_lists 100%N [102; 101]%N [1; 2] ∧
  operator_eq Z.eqb 3 1%N 100%N two_lists = Ok false two_lists.
Proof.
  split; [apply addr_ok_two_lists|]. split; [apply is_list_two_lists_a|].
  split; [apply is_list_two_lists_b|].
  destruct (operator_eq_iff Z.eqb two_lists 3 1%N 100%N
              [4; 3; 2]%N [1; 2; 3] [102; 101]%N [1; 2]
              addr_ok_two_lists is_list_two_lists_a is_list_two_lists_b)
    as (b & Heq & _ & _ & _ & Hlen); [simpl; lia|].
  rewrite Heq. f_equal. apply Hlen. simpl. lia.
Defined.

Lemma ordering_is_lexicographic_witness :
  addr_ok two_lists ∧ is_list two_lists 100%N [102; 101]%N [1; 2] ∧
  is_list two_lists 1%N [4; 3; 2]%N [1; 2; 3] ∧
  operator_lt Z.ltb 3 100%N 1%N two_lists = Ok true two_lists.
Proof.
  split; [apply addr_ok_two_lists|]. split; [apply is_list_two_lists_b|].
  split; [apply is_list_two_lists_a|].
  destruct ordering_is_lexicographic as [H _].
  destruct (H Z Z.ltb two_lists 3%nat 100%N 1%N
              [102; 101]%N [1; 2] [4; 3; 2]%N [1; 2; 3]
              addr_ok_two_lists is_list_two_lists_b is_list_two_lists_a)
    as (lt & gt & Hlt & _ & _ & _ & Hiff & _); [simpl; lia..|].
  rewrite Hlt. f_equal. apply Hiff.
  apply lex_later; [reflexivity..|].
  apply lex_later; [reflexivity..|]. apply lex_prefix.
Defined.

Lemma default_iterator_is_end_witness :
  addr_ok list_123 ∧ is_list list_123 1%N [4; 3; 2]%N [1; 2; 3] ∧
  iter_eq BasicIterator_default (end_ 1%N) = true ∧
  ∃ first, begin 1%N list_123 = Ok first list_123 ∧
           iter_eq BasicIterator_default first = false.
Proof.
  split; [apply addr_ok_list_123|]. split; [apply is_list_list_123|].
  destruct (@default_iterator_is_end Z) as (_ & Hend & Hbegin).
  split; [apply Hend|].
  destruct (Hbegin list_123 1%N [4; 3; 2]%N [1; 2; 3]
              addr_ok_list_123 is_list_list_123)
    as (first & Hb & _ & Hne & _); [done|].
  exists first. done.
Defined.

(** * The further properties at concrete inputs *)

Lemma disjoint_two_lists : (1 :: [4; 3; 2])%N ## (100 :: [102; 101])%N.
Proof. by apply disjoint_decide. Qed.

Lemma reachable_two_lists : reachable 0 bump_new two_lists.
Proof.
  apply (reachable_return 0 bump_new list_123 (CInit 100%N [1; 2])).
  - apply reachable_list_123.
  - by repeat split.
  - reflexivity.
Qed.

Lemma Z_ltb_asym (x y : Z) : (x <? y) = true → (y <? x) = false.
Proof. intros H%Z.ltb_lt. apply Z.ltb_ge. lia. Qed.

Lemma Clear_empties_and_frees_witness :
  addr_ok list_123 ∧ is_list list_123 1%N [4; 3; 2]%N [1; 2; 3] ∧
  ∃ s', Clear 1%N list_123 = Ok tt s' ∧ IsEmpty 1%N s' = Ok true s' ∧
        nodes s' !! 4%N = None.
Proof.
  split; [apply addr_ok_list_123|]. split; [apply is_list_list_123|].
  destruct (Clear_empties_and_frees list_123 1%N [4; 3; 2]%N [1; 2; 3]
              addr_ok_list_123 is_list_list_123)
    as (s' & Hrun & _ & Hempty & _ & _ & Hfreed & _).
  exists s'. split; [exact Hrun|split; [exact Hempty|]]. apply Hfreed. left.
Defined.

Lemma destructor_releases_everything_witness :
  addr_ok list_123 ∧ is_list list_123 1%N [4; 3; 2]%N [1; 2; 3] ∧
  ∃ s', SingleLinkedList_dtor 1%N list_123 = Ok tt s' ∧
        fresh_object s' 1%N ∧ nodes s' !! 3%N = None.
Proof.
  split; [apply addr_ok_list_123|]. split; [apply is_list_list_123|].
  destruct (destructor_releases_everything list_123 1%N [4; 3; 2]%N [1; 2; 3]
              addr_ok_list_123 is_list_list_123)
    as (s' & Hrun & Hfresh & Hfreed & _).
  exists s'. split; [exact Hrun|split; [exact Hfresh|]].
  apply Hfreed. right. right. left.
Defined.

Lemma swap_exchanges_contents_witness :
  addr_ok two_lists ∧ is_list two_lists 1%N [4; 3; 2]%N [1; 2; 3] ∧
  is_list two_lists 100%N [102; 101]%N [1; 2] ∧
  (1 :: [4; 3; 2])%N ## (100 :: [102; 101])%N ∧
  ∃ s', swap 1%N 100%N two_lists = Ok tt s' ∧
        is_list s' 1%N [102; 101]%N [1; 2] ∧
        is_list s' 100%N [4; 3; 2]%N [1; 2; 3].
Proof.
  split; [apply addr_ok_two_lists|]. split; [apply is_list_two_lists_a|].
  split; [apply is_list_two_lists_b|]. split; [apply disjoint_two_lists|].
  destruct (swap_exchanges_contents two_lists 1%N 100%N
              [4; 3; 2]%N [1; 2; 3] [102; 101]%N [1; 2]
              addr_ok_two_lists is_list_two_lists_a is_list_two_lists_b
              disjoint_two_lists)
    as (s' & Hrun & _ & HA & HB & _).
  exists s'. split; [exact Hrun|split; [exact HA|exact HB]].
Defined.

Lemma swap_twice_restores_witness :
  is_list two_lists 1%N [4; 3; 2]%N [1; 2; 3] ∧
  is_list two_lists 100%N [102; 101]%N [1; 2] ∧ 1%N ≠ 100%N ∧
  (run swap 1%N 100%N; swap 1%N 100%N) two_lists = Ok tt two_lists.
Proof.
  assert (Hne : 1%N ≠ 100%N) by discriminate.
  split; [apply is_list_two_lists_a|]. split; [apply is_list_two_lists_b|].
  split; [exact Hne|].
  apply (swap_twice_restores two_lists 1%N 100%N
           [4; 3; 2]%N [1; 2; 3] [102; 101]%N [1; 2]
           is_list_two_lists_a is_list_two_lists_b Hne).
Defined.

Lemma IsEmpty_iff_no_elements_witness :
  addr_ok list_123 ∧ is_list list_123 1%N [4; 3; 2]%N [1; 2; 3] ∧
  IsEmpty 1%N list_123 = Ok false list_123.
Proof.
  split; [apply addr_ok_list_123|]. split; [apply is_list_list_123|].
  destruct (IsEmpty_iff_no_elements list_123 1%N [4; 3; 2]%N [1; 2; 3]
              addr_ok_list_123 is_list_list_123)
    as (b & first & Hrun & _ & _ & Hiff & _).
  rewrite Hrun. f_equal. destruct b; [|reflexivity].
  destruct Hiff as [Hnil _]. discriminate (Hnil eq_refl).
Defined.

Lemma iterators_walk_the_chain_witness :
  addr_ok list_123 ∧ is_list list_123 1%N [4; 3; 2]%N [1; 2; 3] ∧
  (do b <- begin 1%N; do it <- advance 1 b; iter_deref it) list_123
  = Ok 2 list_123.
Proof.
  split; [apply addr_ok_list_123|]. split; [apply is_list_list_123|].
  destruct (iterators_walk_the_chain list_123 1%N [4; 3; 2]%N [1; 2; 3]
              addr_ok_list_123 is_list_list_123)
    as (_ & _ & _ & Hderef & _).
  apply Hderef. reflexivity.
Defined.

Lemma missing_node_is_undefined_witness :
  addr_ok list_123 ∧ is_list list_123 1%N [4; 3; 2]%N [1; 2; 3] ∧
  position 1%N [4; 3; 2]%N (Iterator 2%N) 3 ∧
  EraseAfter 1%N (Iterator 2%N) list_123 = Undefined.
Proof.
  split; [apply addr_ok_list_123|]. split; [apply is_list_list_123|].
  split; [reflexivity|].
  destruct (missing_node_is_undefined list_123 1%N [4; 3; 2]%N [1; 2; 3]
              addr_ok_list_123 is_list_list_123)
    as (_ & _ & _ & _ & Herase).
  apply (Herase (Iterator 2%N) 3%nat); reflexivity.
Defined.

Lemma iter_assign_replaces_one_witness :
  addr_ok list_123 ∧ is_list list_123 1%N [4; 3; 2]%N [1; 2; 3] ∧
  ∃ s', iter_assign (Iterator 3%N) 7 list_123 = Ok tt s' ∧
        is_list s' 1%N [4; 3; 2]%N [1; 7; 3].
Proof.
  split; [apply addr_ok_list_123|]. split; [apply is_list_list_123|].
  destruct (iter_assign_replaces_one list_123 1%N [4; 3; 2]%N [1; 2; 3]
              (Iterator 3%N) 1 7 addr_ok_list_123 is_list_list_123 eq_refl)
    as (s' & Hrun & Hl & _).
  exists s'. split; [exact Hrun|exact Hl].
Defined.

Lemma insert_then_erase_restores_witness :
  addr_ok list_123 ∧ is_list list_123 1%N [4; 3; 2]%N [1; 2; 3] ∧
  position 1%N [4; 3; 2]%N (Iterator 4%N) 1 ∧
  bump_new list_123 = Some 5%N ∧
  (run InsertAfter bump_new 1%N (Iterator 4%N) 10;
   EraseAfter 1%N (Iterator 4%N)) list_123
  = Ok (Iterator 3%N) list_123.
Proof.
  split; [apply addr_ok_list_123|]. split; [apply is_list_list_123|].
  split; [reflexivity|]. split; [reflexivity|].
  apply (insert_then_erase_restores bump_new bump_new_fresh list_123 1%N
           [4; 3; 2]%N [1; 2; 3] (Iterator 4%N) 1 5%N 10
           addr_ok_list_123 is_list_list_123 eq_refl eq_refl).
Defined.

Lemma lists_never_share_nodes_witness :
  reachable 0 bump_new two_lists ∧ 1%N ≠ 100%N ∧
  is_list two_lists 1%N [4; 3; 2]%N [1; 2; 3] ∧
  is_list two_lists 100%N [102; 101]%N [1; 2] ∧
  (1 :: [4; 3; 2])%N ## (100 :: [102; 101])%N.
Proof.
  assert (Hne : 1%N ≠ 100%N) by discriminate.
  split; [apply reachable_two_lists|]. split; [exact Hne|].
  split; [apply is_list_two_lists_a|]. split; [apply is_list_two_lists_b|].
  apply (lists_never_share_nodes 0 bump_new bump_new_fresh two_lists
           1%N 100%N [4; 3; 2]%N [1; 2; 3] [102; 101]%N [1; 2]
           reachable_two_lists Hne is_list_two_lists_a is_list_two_lists_b).
Defined.

Lemma assignment_frees_or_rolls_back_witness :
  addr_ok two_lists ∧ is_list two_lists 100%N [102; 101]%N [1; 2] ∧
  is_list two_lists 1%N [4; 3; 2]%N [1; 2; 3] ∧
  (100 :: [102; 101])%N ## (1 :: [4; 3; 2])%N ∧
  fresh_object two_lists 200%N ∧
  ∃ s', operator_assign 0 bump_new 3 200%N 100%N 1%N two_lists
        = Ok 100%N s' ∧
        nodes s' !! 102%N = None ∧ fresh_object s' 200%N.
Proof.
  assert (Hfresh : fresh_object two_lists 200%N) by (by repeat split).
  assert (Hdisj : (100 :: [102; 101])%N ## (1 :: [4; 3; 2])%N).
  { by apply disjoint_decide. }
  split; [apply addr_ok_two_lists|]. split; [apply is_list_two_lists_b|].
  split; [apply is_list_two_lists_a|]. split; [exact Hdisj|].
  split; [exact Hfresh|].
  pose proof (assignment_frees_or_rolls_back 0 bump_new bump_new_fresh
                two_lists 3 200%N 100%N 1%N [102; 101]%N [1; 2]
                [4; 3; 2]%N [1; 2; 3] addr_ok_two_lists is_list_two_lists_b
                is_list_two_lists_a Hdisj Hfresh) as H.
  assert (E : operator_assign 0 bump_new 3 200%N 100%N 1%N two_lists
               = Ok 100%N (store_after
                             (operator_assign 0 bump_new 3 200%N 100%N 1%N)
                             two_lists))
    by (vm_compute; reflexivity).
  rewrite E in H. destruct H as (Hfreed & Hgone & _); [simpl; lia|].
  eexists. split; [exact E|split; [apply Hfreed; left|exact Hgone]].
Defined.

Lemma InsertAfter_trusts_the_position_witness :
  addr_ok two_lists ∧ is_list two_lists 1%N [4; 3; 2]%N [1; 2; 3] ∧
  is_list two_lists 100%N [102; 101]%N [1; 2] ∧
  (1 :: [4; 3; 2])%N ## (100 :: [102; 101])%N ∧
  position 100%N [102; 101]%N (Iterator 102%N) 1 ∧
  bump_new two_lists = Some 103%N ∧
  ∃ s', InsertAfter bump_new 1%N (Iterator 102%N) 9 two_lists
        = Ok (Iterator 103%N) s' ∧
        GetSize 1%N s' = Ok 4 s' ∧ traverse 3 1%N s' = Ok [1; 2; 3] s' ∧
        GetSize 100%N s' = Ok 2 s' ∧ traverse 3 100%N s' = Ok [1; 9; 2] s'.
Proof.
  split; [apply addr_ok_two_lists|]. split; [apply is_list_two_lists_a|].
  split; [apply is_list_two_lists_b|]. split; [apply disjoint_two_lists|].
  split; [reflexivity|]. split; [reflexivity|].
  destruct (InsertAfter_trusts_the_position bump_new bump_new_fresh two_lists
              1%N 100%N [4; 3; 2]%N [1; 2; 3] [102; 101]%N [1; 2]
              (Iterator 102%N) 1 103%N 9
              addr_ok_two_lists is_list_two_lists_a is_list_two_lists_b
              disjoint_two_lists eq_refl eq_refl)
    as (s' & Hrun & HsA & HtA & HsB & HtB).
  exists s'.
  split; [exact Hrun|split; [exact HsA|split; [|split; [exact HsB|]]]].
  - apply HtA. simpl. lia.
  - apply (HtB 3%nat). simpl. lia.
Defined.

Lemma GetSize_counts_net_insertions_witness :
  addr_ok list_123 ∧ is_list list_123 1%N [4; 3; 2]%N [1; 2; 3] ∧
  ∃ s', performed 0 bump_new 1%N [CPushFront 1%N 0; CPopFront 1%N]
                  list_123 s' ∧
        GetSize 1%N s' = Ok 3 s'.
Proof.
  split; [apply addr_ok_list_123|]. split; [apply is_list_list_123|].
  assert (Hrun : performed 0 bump_new 1%N [CPushFront 1%N 0; CPopFront 1%N]
            list_123
            (store_after (PopFront 1%N)
               (store_after (PushFront bump_new 1%N 0) list_123))).
  { eapply performed_cons with
      (s' := store_after (PushFront bump_new 1%N 0) list_123);
      [reflexivity|discriminate|by eexists|reflexivity|].
    eapply performed_cons;
      [reflexivity|discriminate|split; [by eexists|reflexivity]
      |reflexivity|].
    apply performed_nil. }
  eexists. split; [exact Hrun|].
  exact (GetSize_counts_net_insertions 0 bump_new bump_new_fresh _ _ 1%N _
           Hrun [4; 3; 2]%N [1; 2; 3] addr_ok_list_123 is_list_list_123).
Defined.

Lemma ordering_is_strict_witness :
  (∀ x y : Z, (x <? y) = true → (y <? x) = false) ∧
  addr_ok two_lists ∧ is_list two_lists 100%N [102; 101]%N [1; 2] ∧
  is_list two_lists 1%N [4; 3; 2]%N [1; 2; 3] ∧
  ∃ lt gt, operator_lt Z.ltb 3 100%N 1%N two_lists = Ok lt two_lists ∧
           operator_gt Z.ltb 3 100%N 1%N two_lists = Ok gt two_lists ∧
           lt && gt = false.
Proof.
  split; [exact Z_ltb_asym|]. split; [apply addr_ok_two_lists|].
  split; [apply is_list_two_lists_b|]. split; [apply is_list_two_lists_a|].
  destruct (ordering_is_strict Z.ltb two_lists 3 100%N 1%N
              [102; 101]%N [1; 2] [4; 3; 2]%N [1; 2; 3] Z_ltb_asym
              addr_ok_two_lists is_list_two_lists_b is_list_two_lists_a)
    as (lt & gt & le & ge & Hlt & Hgt & _ & _ & Hboth & _); [simpl; lia..|].
  exists lt, gt. split; [exact Hlt|split; [exact Hgt|exact Hboth]].
Defined.

Lemma operator_eq_symmetric_witness :
  (∀ x y : Z, (x =? y) = (y =? x)) ∧
  addr_ok two_lists ∧ is_list two_lists 100%N [102; 101]%N [1; 2] ∧
  is_list two_lists 1%N [4; 3; 2]%N [1; 2; 3] ∧
  operator_eq Z.eqb 3 100%N 1%N two_lists
  = operator_eq Z.eqb 3 1%N 100%N two_lists.
Proof.
  split; [exact Z.eqb_sym|]. split; [apply addr_ok_two_lists|].
  split; [apply is_list_two_lists_b|]. split; [apply is_list_two_lists_a|].
  destruct (operator_eq_symmetric Z.eqb two_lists 3 100%N 1%N
              [102; 101]%N [1; 2] [4; 3; 2]%N [1; 2; 3] Z.eqb_sym
              addr_ok_two_lists is_list_two_lists_b is_list_two_lists_a)
    as [Hsym _]; [simpl; lia..|].
  exact Hsym.
Defined.

Lemma empty_construction_witness :
  addr_ok (@empty_store Z) ∧ fresh_object (@empty_store Z) 1%N ∧
  ∃ s', SingleLinkedList_default 0 1%N (@empty_store Z) = Ok tt s' ∧
        SingleLinkedList_init 0 bump_new 1%N [] (@empty_store Z) = Ok tt s' ∧
        IsEmpty 1%N s' = Ok true s'.
Proof.
  assert (Hok : addr_ok (@empty_store Z)) by (by apply addr_ok_decide).
  assert (Hfresh : fresh_object (@empty_store Z) 1%N) by (by repeat split).
  split; [done|split; [done|]].
  destruct (empty_construction 0 bump_new (@empty_store Z) 1%N Hok Hfresh)
    as (s' & Hdef & Hinit & _ & Hempty & _).
  exists s'. split; [exact Hdef|split; [exact Hinit|exact Hempty]].
Defined.

Lemma constructors_touch_only_new_storage_witness :
  addr_ok list_123 ∧ fresh_object list_123 200%N ∧
  is_list list_123 1%N [4; 3; 2]%N [1; 2; 3] ∧
  ∃ s', SingleLinkedList_copy 0 bump_new 3 200%N 1%N list_123 = Ok tt s' ∧
        is_list s' 1%N [4; 3; 2]%N [1; 2; 3].
Proof.
  assert (Hfresh : fresh_object list_123 200%N) by (by repeat split).
  split; [apply addr_ok_list_123|]. split; [done|].
  split; [apply is_list_list_123|].
  destruct (constructors_touch_only_new_storage 0 bump_new bump_new_fresh
              list_123 3 200%N 1%N [4; 3; 2]%N [1; 2; 3] [7; 8]
              addr_ok_list_123 Hfresh is_list_list_123) as [_ H];
    [simpl; lia|].
  assert (E : SingleLinkedList_copy 0 bump_new 3 200%N 1%N list_123
               = Ok tt (store_after
                          (SingleLinkedList_copy 0 bump_new 3 200%N 1%N)
                          list_123))
    by (vm_compute; reflexivity).
  rewrite E in H. destruct H as (_ & _ & H).
  eexists. split; [exact E|exact H].
Defined.

Lemma erase_invalidates_only_the_erased_witness :
  addr_ok list_123 ∧ is_list list_123 1%N [4; 3; 2]%N [1; 2; 3] ∧
  position 1%N [4; 3; 2]%N (Iterator 4%N) 1 ∧
  ∃ it s', EraseAfter 1%N (Iterator 4%N) list_123 = Ok it s' ∧
           iter_deref (Iterator 3%N) s' = Undefined ∧
           iter_deref (Iterator 2%N) s' = Ok 3 s'.
Proof.
  split; [apply addr_ok_list_123|]. split; [apply is_list_list_123|].
  split; [reflexivity|].
  destruct (erase_invalidates_only_the_erased list_123 1%N [4; 3; 2]%N
              [1; 2; 3] (Iterator 4%N) 1 3%N
              addr_ok_list_123 is_list_list_123 eq_refl eq_refl)
    as (it & s' & Hrun & Hgone & _ & Hkept).
  exists it, s'. split; [exact Hrun|split; [exact Hgone|]].
  apply (Hkept 2%nat 2%N 3); [reflexivity|discriminate|reflexivity].
Defined.

Lemma insert_keeps_iterators_valid_witness :
  addr_ok list_123 ∧ is_list list_123 1%N [4; 3; 2]%N [1; 2; 3] ∧
  position 1%N [4; 3; 2]%N (Iterator 4%N) 1 ∧
  bump_new list_123 = Some 5%N ∧
  ∃ s', InsertAfter bump_new 1%N (Iterator 4%N) 10 list_123
        = Ok (Iterator 5%N) s' ∧
        iter_deref (Iterator 5%N) s' = Ok 10 s' ∧
        iter_deref (Iterator 3%N) s' = Ok 2 s'.
Proof.
  split; [apply addr_ok_list_123|]. split; [apply is_list_list_123|].
  split; [reflexivity|]. split; [reflexivity|].
  destruct (insert_keeps_iterators_valid bump_new bump_new_fresh list_123 1%N
              [4; 3; 2]%N [1; 2; 3] (Iterator 4%N) 1 5%N 10
              addr_ok_list_123 is_list_list_123 eq_refl eq_refl)
    as (s' & Hrun & Hnew & Hkept).
  exists s'. split; [exact Hrun|split; [exact Hnew|]].
  apply (Hkept 1%nat 3%N 2); reflexivity.
Defined.
